(** * Defaulted named tuples: the notebook's [namedtuple_defaults]

    The notebook defines one function,

<<
    def namedtuple_defaults(typename, field_names, defaults):
        nt = namedtuple(typename, field_names)
        nt.__new__.__defaults__ = defaults
        return nt
>>

    and builds [Location], [Site] and [Move] with it.  The function is a
    call of [collections.namedtuple] followed by an assignment to the
    [__defaults__] attribute of the generated constructor, so its behaviour
    is that of these two pieces of the Python runtime.  They are embedded
    here together with the function itself:

    - [Str]: the string methods [namedtuple] uses on names;
    - [namedtuple]: the validation of [collections.namedtuple] and the class
      object it allocates;
    - [set_new_defaults]: the setter of a function's [__defaults__];
    - [bind_args]: the binding of positional and keyword arguments to
      parameter slots (Language Reference, section Calls);
    - [construct] and the instance operations: what the generated tuple
      subclass offers.

    Class objects and instances live in a heap, threaded through a small
    state and exception monad, because the factory allocates a class object
    and then mutates it.

    Scope of the model.  [namedtuple] is embedded as documented: which
    names it accepts, and a class whose constructor takes the fields in
    order; the text of the class it generates is not.  Names are ASCII:
    Python also accepts identifier characters above 127, but its parser
    then normalises them, so such names do not behave like the others and
    are left out; [Str] treats a character above 127 as neither an
    identifier character nor white space, and a statement that infers
    something from a name being refused says that the name is ASCII
    ([Str.is_ascii]).  The keyword list is that of Python 3.5, the
    notebook's kernel.  Field values are immutable data ([value]).  Objects
    are never collected. *)

From Stdlib Require Import ZArith Ascii String Lia.
From stdpp Require Import base list strings gmap.

#[local] Set Warnings "-clear-no-such-hyp".

Local Open Scope Z_scope.
Local Open Scope nat_scope.

(** ** Values and exceptions *)

(** Immutable data a field can hold. *)
#[warnings="-register-all"]
Inductive value : Type :=
  | VNone
  | VInt (z : Z)
  | VStr (s : string)
  | VTuple (items : list value).

(** What may be passed as [defaults]: Python has several sequence kinds, and
    the setter of [__defaults__] tells them apart. *)
Inductive sequence : Type :=
  | Tuple (items : list value)
  | List (items : list value).

Definition seq_items (d : sequence) : list value :=
  match d with Tuple l => l | List l => l end.

(** The exceptions raised on the modelled paths, one constructor per
    message of the runtime. *)
Inductive exn : Type :=
  | ValueError_not_identifier (name : string)
      (* Type names and field names must be valid identifiers *)
  | ValueError_keyword (name : string)
      (* Type names and field names cannot be a keyword *)
  | ValueError_underscore (name : string)
      (* Field names cannot start with an underscore *)
  | ValueError_duplicate (name : string)
      (* Encountered duplicate field name *)
  | ValueError_unexpected_fields
      (* _replace: Got unexpected field names *)
  | TypeError_defaults_not_tuple
      (* __defaults__ must be set to a tuple object *)
  | TypeError_unexpected_keyword (name : string)
      (* __new__() got an unexpected keyword argument *)
  | TypeError_multiple_values (name : string)
      (* __new__() got multiple values for argument *)
  | TypeError_repeated_keyword (name : string)
      (* got multiple values for keyword argument (raised by the call) *)
  | TypeError_too_many_positional (given : nat)
      (* __new__() takes n positional arguments but k were given *)
  | TypeError_missing (names : list string)
      (* __new__() missing k required positional arguments *)
  | TypeError_not_a_class
      (* __class__ must be set to a class; tuple.__new__(X): X is not a type *)
  | TypeError_cannot_delete_class
      (* can't delete __class__ attribute *)
  | TypeError_no_item_assignment
      (* object does not support item assignment / deletion *)
  | TypeError_wrong_length (expected got : nat)
      (* _make: Expected n arguments, got k *)
  | AttributeError (name : string)
  | IndexError
  | ReferenceError (* a dangling reference: no such object in the heap *).

(** ** Strings *)

Module Str.

Definition code (c : ascii) : nat := nat_of_ascii c.

Definition between (lo hi n : nat) : bool := (lo <=? n) && (n <=? hi).

(** The characters the model covers. *)
Definition is_ascii_char (c : ascii) : bool := code c <? 128.

(** [c.isspace()] on ASCII: tab, line feed, vertical tab, form feed,
    carriage return, the four separators 28..31, and space. *)
Definition isspace (c : ascii) : bool :=
  between 9 13 (code c) || between 28 32 (code c).

(** First character of an identifier: a letter or the underscore. *)
Definition is_id_start (c : ascii) : bool :=
  between 65 90 (code c) || between 97 122 (code c) || (code c =? 95).

(** Further characters: also the digits. *)
Definition is_id_continue (c : ascii) : bool :=
  is_id_start c || between 48 57 (code c).

Fixpoint all_chars (p : ascii -> bool) (s : string) : bool :=
  match s with
  | EmptyString => true
  | String c s' => p c && all_chars p s'
  end.

(** The string is ASCII text. *)
Definition is_ascii (s : string) : bool := all_chars is_ascii_char s.

(** [s.isidentifier()], for ASCII text. *)
Definition isidentifier (s : string) : bool :=
  match s with
  | EmptyString => false
  | String c s' => is_id_start c && all_chars is_id_continue s'
  end.

(** [keyword.kwlist] of Python 3.5. *)
Definition kwlist : list string :=
  [ "False"; "None"; "True"; "and"; "as"; "assert"; "break"; "class";
    "continue"; "def"; "del"; "elif"; "else"; "except"; "finally"; "for";
    "from"; "global"; "if"; "import"; "in"; "is"; "lambda"; "nonlocal";
    "not"; "or"; "pass"; "raise"; "return"; "try"; "while"; "with";
    "yield" ].

(** [keyword.iskeyword(s)] *)
Definition iskeyword (s : string) : bool := bool_decide (s ∈ kwlist).

(** [s.startswith('_')] *)
Definition starts_with_underscore (s : string) : bool :=
  match s with
  | String c _ => code c =? 95
  | EmptyString => false
  end.

(** [s.replace(',', ' ')] *)
Fixpoint replace_commas (s : string) : string :=
  match s with
  | EmptyString => EmptyString
  | String c s' =>
      String (if code c =? 44 then " "%char else c) (replace_commas s')
  end.

Definition word_of (rev_chars : list ascii) : string :=
  string_of_list_ascii (rev rev_chars).

(** [s.split()] with no separator: the maximal runs of characters that
    are not white space.  [cur] holds the run being read, last character
    first. *)
Fixpoint split_from (cur : list ascii) (s : string) : list string :=
  match s with
  | EmptyString =>
      match cur with [] => [] | _ => [word_of cur] end
  | String c s' =>
      if isspace c then
        match cur with
        | [] => split_from [] s'
        | _ => word_of cur :: split_from [] s'
        end
      else split_from (c :: cur) s'
  end.

Definition split (s : string) : list string := split_from [] s.

(** [sep.join(names)] *)
Fixpoint join (sep : string) (names : list string) : string :=
  match names with
  | [] => EmptyString
  | [x] => x
  | x :: rest => x +:+ sep +:+ join sep rest
  end.

End Str.

(** ** The heap *)

(** References to class objects and to instances. *)
Abbreviation class_id := nat (only parsing).
Abbreviation addr := nat (only parsing).

(** The generated tuple subclass, as far as construction and field access
    depend on it: [__name__], [_fields], and the [__defaults__] of its
    [__new__] ([None] until something is assigned). *)
Record class_obj : Type := ClassObj {
  cls_name : string;
  cls_fields : list string;
  new_defaults : option (list value)
}.

(** A tuple object of a generated class. *)
Record instance_obj : Type := InstanceObj {
  inst_class : class_id;
  inst_items : list value
}.

(** Objects are identified by their position; allocation appends. *)
Record heap : Type := Heap {
  classes : list class_obj;
  instances : list instance_obj
}.

Definition empty_heap : heap := Heap [] [].

(** ** Computations that read and write the heap and may raise *)

Definition M (A : Type) : Type := heap -> (exn + A) * heap.

Definition ret {A} (x : A) : M A := fun h => (inr x, h).
Definition raise {A} (e : exn) : M A := fun h => (inl e, h).
Definition bind {A B} (m : M A) (k : A -> M B) : M B :=
  fun h =>
    match m h with
    | (inl e, h') => (inl e, h')
    | (inr x, h') => k x h'
    end.

#[global] Instance M_ret : MRet M := @ret.
#[global] Instance M_bind : MBind M := fun A B k m => bind m k.

Definition lift {A} (r : exn + A) : M A :=
  match r with inl e => raise e | inr x => ret x end.

Definition get_class (c : class_id) : M class_obj :=
  fun h =>
    match classes h !! c with
    | Some cls => (inr cls, h)
    | None => (inl ReferenceError, h)
    end.

Definition get_instance (a : addr) : M instance_obj :=
  fun h =>
    match instances h !! a with
    | Some inst => (inr inst, h)
    | None => (inl ReferenceError, h)
    end.

Definition alloc_class (cls : class_obj) : M class_id :=
  fun h => (inr (length (classes h)), Heap (classes h ++ [cls]) (instances h)).

Definition alloc_instance (inst : instance_obj) : M addr :=
  fun h => (inr (length (instances h)), Heap (classes h) (instances h ++ [inst])).

Definition put_class (c : class_id) (cls : class_obj) : M unit :=
  fun h => (inr tt, Heap (<[c := cls]> (classes h)) (instances h)).

Definition put_instance (a : addr) (inst : instance_obj) : M unit :=
  fun h => (inr tt, Heap (classes h) (<[a := inst]> (instances h))).

(** ** [collections.namedtuple] *)

(** [field_names] is either one string or a sequence of strings. *)
Inductive field_names_arg : Type :=
  | FieldStr (s : string)
  | FieldSeq (names : list string).

(** <<
    if isinstance(field_names, str):
        field_names = field_names.replace(',', ' ').split()
    field_names = list(map(str, field_names))
>> *)
Definition normalize_field_names (field_names : field_names_arg) : list string :=
  match field_names with
  | FieldStr s => Str.split (Str.replace_commas s)
  | FieldSeq names => names
  end.

(** <<
    for name in [typename] + field_names:
        if not name.isidentifier(): raise ValueError(...)
        if _iskeyword(name): raise ValueError(...)
>> *)
Fixpoint check_names (names : list string) : exn + unit :=
  match names with
  | [] => inr tt
  | name :: rest =>
      if negb (Str.isidentifier name) then inl (ValueError_not_identifier name)
      else if Str.iskeyword name then inl (ValueError_keyword name)
      else check_names rest
  end.

(** <<
    seen = set()
    for name in field_names:
        if name.startswith('_') and not rename: raise ValueError(...)
        if name in seen: raise ValueError(...)
        seen.add(name)
>> *)
Fixpoint check_fields (seen : gset string) (names : list string) : exn + unit :=
  match names with
  | [] => inr tt
  | name :: rest =>
      if Str.starts_with_underscore name then inl (ValueError_underscore name)
      else if bool_decide (name ∈ seen) then inl (ValueError_duplicate name)
      else check_fields ({[name]} ∪ seen) rest
  end.

(** [namedtuple(typename, field_names)]: validate the names, then create the
    class.  Its [__new__] is a fresh function taking [_cls] and the fields,
    with no defaults. *)
Definition namedtuple (typename : string) (field_names : field_names_arg)
  : M class_id :=
  let names := normalize_field_names field_names in
  lift (check_names (typename :: names));;
  lift (check_fields ∅ names);;
  alloc_class (ClassObj typename names None).

(** ** Assignment to [nt.__new__.__defaults__] *)

(** The setter accepts a tuple (or [None], not modelled) and stores the
    object as it is; it does not look at its length. *)
Definition set_new_defaults (nt : class_id) (defaults : sequence) : M unit :=
  cls ← get_class nt;
  match defaults with
  | Tuple items =>
      put_class nt (ClassObj (cls_name cls) (cls_fields cls) (Some items))
  | List _ => raise TypeError_defaults_not_tuple
  end.

(** ** The notebook's function *)

(** <<
    def namedtuple_defaults(typename, field_names, defaults):
        nt = namedtuple(typename, field_names)
        nt.__new__.__defaults__ = defaults
        return nt
>> *)
Definition namedtuple_defaults (typename : string)
    (field_names : field_names_arg) (defaults : sequence) : M class_id :=
  nt ← namedtuple typename field_names;
  set_new_defaults nt defaults;;
  ret nt.

(** ** Binding the arguments of a call to the parameters *)

Section Binding.
Context {A : Type}.

(** Position of a parameter name. *)
Fixpoint index_of (name : string) (params : list string) : option nat :=
  match params with
  | [] => None
  | p :: rest =>
      if decide (p = name) then Some 0 else S <$> index_of name rest
  end.

(** Value given by keyword for [name], if any. *)
Fixpoint lookup_kw (name : string) (kw : list (string * A)) : option A :=
  match kw with
  | [] => None
  | (k, v) :: rest => if decide (k = name) then Some v else lookup_kw name rest
  end.

(** The first [N] slots take the [N] positional arguments; the others
    start unfilled. *)
Definition positional_slots (argc : nat) (pos : list A) : list (option A) :=
  let n := min (length pos) argc in
  (Some <$> take n pos) ++ replicate (argc - n) None.

(** A keyword argument goes to the slot of the parameter it names; that
    slot must exist and still be unfilled. *)
Definition bind_keyword (params : list string) (slots : list (option A))
    (kv : string * A) : exn + list (option A) :=
  match index_of kv.1 params with
  | None => inl (TypeError_unexpected_keyword kv.1)
  | Some j =>
      match slots !! j with
      | Some None => inr (<[j := Some kv.2]> slots)
      | _ => inl (TypeError_multiple_values kv.1)
      end
  end.

Fixpoint bind_keywords (params : list string) (slots : list (option A))
    (kw : list (string * A)) : exn + list (option A) :=
  match kw with
  | [] => inr slots
  | kv :: rest =>
      match bind_keyword params slots kv with
      | inl e => inl e
      | inr slots' => bind_keywords params slots' rest
      end
  end.

(** The defaults belong to the last parameters: with [argc] parameters
    and [d] defaults, slot [j] has default number [j - (argc - d)].  When
    [d > argc] the first [d - argc] defaults belong to no slot. *)
Definition default_for (argc : nat) (defaults : list A) (j : nat) : option A :=
  let m := (Z.of_nat argc - Z.of_nat (length defaults))%Z in
  if (Z.of_nat j <? m)%Z then None
  else defaults !! Z.to_nat (Z.of_nat j - m).

Definition fill_slot (argc : nat) (defaults : list A) (j : nat)
    (slot : option A) : option A :=
  match slot with
  | Some v => Some v
  | None => default_for argc defaults j
  end.

(** Names of the parameters whose slot is unfilled. *)
Fixpoint unfilled (params : list string) (slots : list (option A)) : list string :=
  match params, slots with
  | p :: params', None :: slots' => p :: unfilled params' slots'
  | _ :: params', Some _ :: slots' => unfilled params' slots'
  | _, _ => []
  end.

(** All slots, if every one is filled. *)
Fixpoint all_filled (slots : list (option A)) : option (list A) :=
  match slots with
  | [] => Some []
  | Some v :: rest => cons v <$> all_filled rest
  | None :: _ => None
  end.

(** The call: positional arguments, then keywords, then the count of
    positional arguments is checked, then defaults fill what is left, and
    a slot still unfilled is a missing argument. *)
Definition bind_args (params : list string) (defaults : list A)
    (pos : list A) (kw : list (string * A)) : exn + list A :=
  let argc := length params in
  match bind_keywords params (positional_slots argc pos) kw with
  | inl e => inl e
  | inr slots =>
      if argc <? length pos then inl (TypeError_too_many_positional (length pos))
      else
        let filled := imap (fill_slot argc defaults) slots in
        match all_filled filled with
        | Some args => inr args
        | None => inl (TypeError_missing (unfilled params filled))
        end
  end.

End Binding.

(** ** The keyword arguments of a call *)

(** The keyword arguments of a call, written out or unpacked from [**]
    mappings, are gathered in order into one dictionary before the callee
    is entered.  A name that comes a second time is an error of the call
    itself, reported for the first name that repeats an earlier one.  (A
    name written out twice in the text of one call does not compile; at
    run time the second occurrence comes from a [**] mapping.) *)
Fixpoint first_repeated {A} (seen : gset string) (kw : list (string * A))
  : option string :=
  match kw with
  | [] => None
  | (k, _) :: rest =>
      if bool_decide (k ∈ seen) then Some k
      else first_repeated ({[k]} ∪ seen) rest
  end.

Definition check_keywords {A} (kw : list (string * A)) : exn + unit :=
  match first_repeated ∅ kw with
  | Some k => inl (TypeError_repeated_keyword k)
  | None => inr tt
  end.

(** ** Calling the class *)

(** An argument of [__new__]: the class, passed first by [type.__call__],
    or a value. *)
Inductive arg : Type :=
  | ArgClass (c : class_id)
  | ArgValue (v : value).

Definition arg_value (a : arg) : option value :=
  match a with ArgValue v => Some v | ArgClass _ => None end.

Fixpoint arg_values (args : list arg) : option (list value) :=
  match args with
  | [] => Some []
  | a :: rest =>
      match arg_value a, arg_values rest with
      | Some v, Some vs => Some (v :: vs)
      | _, _ => None
      end
  end.

(** The body of the generated [__new__(_cls, f1, ..., fn)]:
    [return _tuple.__new__(_cls, (f1, ..., fn))]. *)
Definition tuple_new (args : list arg) : M addr :=
  match args with
  | ArgClass c :: fields =>
      match arg_values fields with
      | Some items => alloc_instance (InstanceObj c items)
      | None => raise TypeError_not_a_class
      end
  | _ => raise TypeError_not_a_class
  end.

Definition the_defaults (cls : class_obj) : list value :=
  match new_defaults cls with Some d => d | None => [] end.

(** Calling the class [nt] with positional arguments [pos] and keyword
    arguments [kw]: the keywords are gathered, then [type.__call__] calls
    [nt.__new__] with [nt] put before [pos], and the same keywords. *)
Definition construct (nt : class_id) (pos : list value)
    (kw : list (string * value)) : M addr :=
  cls ← get_class nt;
  lift (check_keywords kw);;
  args ← lift (bind_args ("_cls" :: cls_fields cls)
                  (ArgValue <$> the_defaults cls)
                  (ArgClass nt :: (ArgValue <$> pos))
                  (prod_map id ArgValue <$> kw));
  tuple_new args.

(** ** Operations on instances *)

(** [inst.name] for a field: the class holds
    [name = property(itemgetter(i))].  Other attributes of the class
    (methods, [_fields], dunder names) are not data and are outside the
    model; a name that is no attribute raises [AttributeError]. *)
Definition getattr (a : addr) (name : string) : M value :=
  inst ← get_instance a;
  cls ← get_class (inst_class inst);
  match index_of name (cls_fields cls) with
  | Some i =>
      match inst_items inst !! i with
      | Some v => ret v
      | None => raise IndexError
      end
  | None => raise (AttributeError name)
  end.

(** [inst[i]] for a non-negative index. *)
Definition getitem (a : addr) (i : nat) : M value :=
  inst ← get_instance a;
  match inst_items inst !! i with
  | Some v => ret v
  | None => raise IndexError
  end.

(** [inst.name = v], where [v] is a value or a class.  A field is a
    property without setter, and the class has [__slots__ = ()], so there
    is no instance dictionary: every name but one is refused.  [__class__]
    is the one attribute with a setter.  It wants a class, and accepts any
    class made by [namedtuple], since they all have the layout of
    [tuple]: the instance then belongs to that class, with the items it
    has. *)
Definition setattr (a : addr) (name : string) (v : arg) : M unit :=
  inst ← get_instance a;
  if decide (name = "__class__") then
    match v with
    | ArgClass c =>
        get_class c;;
        put_instance a (InstanceObj c (inst_items inst))
    | ArgValue _ => raise TypeError_not_a_class
    end
  else raise (AttributeError name).

Definition delattr (a : addr) (name : string) : M unit :=
  get_instance a;;
  if decide (name = "__class__") then raise TypeError_cannot_delete_class
  else raise (AttributeError name).

Definition setitem (a : addr) (i : nat) (v : value) : M unit :=
  get_instance a;;
  raise TypeError_no_item_assignment.

Definition delitem (a : addr) (i : nat) : M unit :=
  get_instance a;;
  raise TypeError_no_item_assignment.

(** The generated [_replace]:
<<
    result = _self._make(map(kwds.pop, field_names, _self))
    if kwds: raise ValueError('Got unexpected field names: ...')
    return result
>>
    where [_make] builds a new tuple of the same class and checks its
    length.  The keywords of the call are gathered first, as for every
    call. *)
Definition replace (a : addr) (kw : list (string * value)) : M addr :=
  inst ← get_instance a;
  lift (check_keywords kw);;
  cls ← get_class (inst_class inst);
  let items :=
    zip_with (fun name old => default old (lookup_kw name kw))
      (cls_fields cls) (inst_items inst) in
  result ← alloc_instance (InstanceObj (inst_class inst) items);
  if negb (length items =? length (cls_fields cls)) then
    raise (TypeError_wrong_length (length (cls_fields cls)) (length items))
  else if forallb (fun kv => bool_decide (kv.1 ∈ cls_fields cls)) kw then
    ret result
  else raise ValueError_unexpected_fields.

(** ** Equality *)

(** [a == b] on values.  Tuples are compared item by item up to the first
    difference, and then by length. *)
Fixpoint py_eq (a b : value) : bool :=
  match a, b with
  | VNone, VNone => true
  | VInt x, VInt y => (x =? y)%Z
  | VStr s, VStr t => bool_decide (s = t)
  | VTuple xs, VTuple ys =>
      (fix items_eq (xs ys : list value) : bool :=
         match xs, ys with
         | [], [] => true
         | x :: xs', y :: ys' => if py_eq x y then items_eq xs' ys' else false
         | _, _ => false
         end) xs ys
  | _, _ => false
  end.

Fixpoint tuple_eq (xs ys : list value) : bool :=
  match xs, ys with
  | [], [] => true
  | x :: xs', y :: ys' => if py_eq x y then tuple_eq xs' ys' else false
  | _, _ => false
  end.

(** [a == b] on instances is [tuple.__eq__]: the classes play no part. *)
Definition instance_eq (a b : addr) : M bool :=
  ia ← get_instance a;
  ib ← get_instance b;
  ret (tuple_eq (inst_items ia) (inst_items ib)).

(** ** Using a type: the operations a holder of classes and instances has *)

Inductive op : Type :=
  | OpFactory (typename : string) (field_names : field_names_arg)
      (defaults : sequence)
  | OpConstruct (nt : class_id) (pos : list value) (kw : list (string * value))
  | OpGetAttr (a : addr) (name : string)
  | OpGetItem (a : addr) (i : nat)
  | OpSetAttr (a : addr) (name : string) (v : arg)
  | OpDelAttr (a : addr) (name : string)
  | OpSetItem (a : addr) (i : nat) (v : value)
  | OpDelItem (a : addr) (i : nat)
  | OpReplace (a : addr) (kw : list (string * value))
  | OpEq (a b : addr)
  | OpSetDefaults (nt : class_id) (defaults : sequence).

(** The heap an operation leaves, whether it returns or raises. *)
Definition exec (o : op) (h : heap) : heap :=
  match o with
  | OpFactory t f d => (namedtuple_defaults t f d h).2
  | OpConstruct nt pos kw => (construct nt pos kw h).2
  | OpGetAttr a name => (getattr a name h).2
  | OpGetItem a i => (getitem a i h).2
  | OpSetAttr a name v => (setattr a name v h).2
  | OpDelAttr a name => (delattr a name h).2
  | OpSetItem a i v => (setitem a i v h).2
  | OpDelItem a i => (delitem a i h).2
  | OpReplace a kw => (replace a kw h).2
  | OpEq a b => (instance_eq a b h).2
  | OpSetDefaults nt d => (set_new_defaults nt d h).2
  end.

Definition exec_all (ops : list op) (h : heap) : heap :=
  foldl (fun h o => exec o h) h ops.

(** * Vocabulary of the properties *)

(** ** Names accepted by [namedtuple] *)

Definition valid_name (s : string) : bool :=
  Str.isidentifier s && negb (Str.iskeyword s).

Definition valid_field (s : string) : bool :=
  valid_name s && negb (Str.starts_with_underscore s).

(** The arguments [namedtuple] accepts. *)
Definition valid_names (typename : string) (names : list string) : Prop :=
  valid_name typename = true /\
  Forall (fun s => valid_field s = true) names /\
  NoDup names.

(** ** Calls *)

Section Calls.
Context {A : Type}.
Implicit Types (params : list string) (pos defaults : list A)
  (kw : list (string * A)).

(** A slot once the keywords are placed. *)
Definition slot_after_kw params kw (j : nat) (slot : option A) : option A :=
  match slot with
  | Some v => Some v
  | None => params !! j ≫= (fun name => lookup_kw name kw)
  end.

(** The arguments of a call are well formed when no more positional
    arguments are given than there are parameters, and the keywords are
    distinct names of parameters that got no positional argument. *)
Definition well_formed_call params pos kw : Prop :=
  length pos <= length params /\
  NoDup kw.*1 /\
  forall k, k ∈ kw.*1 -> exists j, params !! j = Some k /\ length pos <= j.

(** What slot [j] holds in the end: the positional argument, else the
    keyword argument, else the default. *)
Definition slot_value params defaults pos kw (j : nat) : option A :=
  match pos !! j with
  | Some v => Some v
  | None =>
      match params !! j ≫= (fun name => lookup_kw name kw) with
      | Some v => Some v
      | None => default_for (length params) defaults j
      end
  end.

End Calls.

(** The value field number [j] gets: the positional argument, else the
    keyword argument, else the default aligned to the end of the field
    list. *)
Definition field_value (fields : list string) (ds pos : list value)
    (kw : list (string * value)) (j : nat) : option value :=
  match pos !! j with
  | Some v => Some v
  | None =>
      match fields !! j ≫= (fun name => lookup_kw name kw) with
      | Some v => Some v
      | None =>
          if decide (length fields <= j + length ds)
          then ds !! (j + length ds - length fields)
          else None
      end
  end.

(** ** Delimiters in the string form of [field_names] *)

(** A character that ends a name in the string form of [field_names]. *)
Definition is_delimiter (c : ascii) : bool :=
  Str.isspace c || (Str.code c =? 44).

Definition delimiter (sep : string) : Prop :=
  sep <> EmptyString /\ Str.all_chars is_delimiter sep = true.

(** ** Heaps that grow *)

(** [h'] is [h] with new objects after the old ones. *)
Definition extends (h h' : heap) : Prop :=
  exists new_classes new_instances,
    h' = Heap (classes h ++ new_classes) (instances h ++ new_instances).

(** In [h'] every instance of [h] still holds the items it held, and every
    class of [h] still has its name and its fields in their order. *)
Definition keeps (h h' : heap) : Prop :=
  (forall a inst,
     instances h !! a = Some inst ->
     exists inst',
       instances h' !! a = Some inst' /\
       inst_items inst' = inst_items inst) /\
  (forall c cls,
     classes h !! c = Some cls ->
     exists cls',
       classes h' !! c = Some cls' /\
       cls_name cls' = cls_name cls /\
       cls_fields cls' = cls_fields cls).

(** ** A heap for the examples *)

(** [Site = namedtuple_defaults('Site', 'owner strength production', (0,0,0))]
    in the empty heap. *)
Definition site_heap : heap :=
  Heap [ClassObj "Site" ["owner"; "strength"; "production"]
          (Some [VInt 0; VInt 0; VInt 0])] [].

(** ** The classes the notebook starts from *)

(** The first cells define plain classes whose [__init__] only stores its
    arguments:
<<
    class Location:
        def __init__(self, x=0, y=0):
            self.x = x
            self.y = y
>>
    Such a class is given by its name, the parameters after [self], and
    the defaults of the last parameters. *)
Record data_class : Type := DataClass {
  dc_name : string;
  dc_fields : list string;
  dc_defaults : list value
}.

Definition Point_class : data_class := DataClass "Point" ["x"; "y"] [].
Definition Location_class : data_class :=
  DataClass "Location" ["x"; "y"] [VInt 0; VInt 0].
Definition Site_class : data_class :=
  DataClass "Site" ["owner"; "strength"; "production"]
    [VInt 0; VInt 0; VInt 0].
Definition Move_class : data_class :=
  DataClass "Move" ["loc"; "direction"] [VInt 0; VInt 0].

(** A plain object is its [__dict__]; the objects live in a store of their
    own, identified by position. *)
Abbreviation objects := (list (gmap string value)) (only parsing).

(** The values among the arguments of [__init__] after [self]. *)
Definition init_values (args : list (nat + value)) : option (list value) :=
  mapM (fun a => match a with inr v => Some v | inl _ => None end) args.

(** The body of [__init__]: [self.f = f] for each parameter in turn. *)
Definition init_body (fields : list string) (args : list (nat + value))
    (objs : objects) : (exn + unit) * objects :=
  match args with
  | inl self :: rest =>
      match objs !! self, init_values rest with
      | Some d, Some vs =>
          (inr tt,
           <[self := foldl (fun d fv => <[fv.1 := fv.2]> d) d (zip fields vs)]>
             objs)
      | None, _ => (inl ReferenceError, objs)
      | _, None => (inl TypeError_not_a_class, objs)
      end
  | _ => (inl TypeError_not_a_class, objs)
  end.

(** Calling the class: the keywords are gathered, a new object with an
    empty [__dict__] is made, and [__init__] is called with it put before
    the positional arguments. *)
Definition dc_call (C : data_class) (pos : list value)
    (kw : list (string * value)) (objs : objects) : (exn + nat) * objects :=
  match check_keywords kw with
  | inl e => (inl e, objs)
  | inr _ =>
  let self := length objs in
  let objs1 := objs ++ [∅] in
  match bind_args ("self" :: dc_fields C) (inr <$> dc_defaults C)
          (inl self :: (inr <$> pos)) (prod_map id inr <$> kw) with
  | inl e => (inl e, objs1)
  | inr args =>
      match init_body (dc_fields C) args objs1 with
      | (inl e, objs2) => (inl e, objs2)
      | (inr _, objs2) => (inr self, objs2)
      end
  end
  end.

(** [obj.name] on a plain object. *)
Definition dc_getattr (o : nat) (name : string) (objs : objects) : exn + value :=
  match objs !! o with
  | Some d =>
      match d !! name with
      | Some v => inr v
      | None => inl (AttributeError name)
      end
  | None => inl ReferenceError
  end.

(** ** More vocabulary *)

(** The string has a character that separates names. *)
Definition has_delimiter (s : string) : bool :=
  negb (Str.all_chars (fun c => negb (is_delimiter c)) s).

(** Every instance belongs to a class of the heap and has one item per
    field of that class. *)
Definition heap_wf (h : heap) : Prop :=
  forall a inst,
    instances h !! a = Some inst ->
    exists cls,
      classes h !! inst_class inst = Some cls /\
      length (inst_items inst) = length (cls_fields cls).

(** The operation assigns a class to the [__class__] of an instance. *)
Definition writes_class (o : op) : bool :=
  match o with
  | OpSetAttr _ name (ArgClass _) => bool_decide (name = "__class__")
  | _ => false
  end.

(** The operation assigns to the [__defaults__] of a constructor. *)
Definition sets_defaults (o : op) : bool :=
  match o with
  | OpSetDefaults _ _ => true
  | _ => false
  end.

(** The operation can change an object that exists: it assigns a class
    to an instance, or defaults to a constructor. *)
Definition changes_existing (o : op) : bool :=
  match o with
  | OpSetDefaults _ _ => true
  | _ => writes_class o
  end.

(** The fields a call supplies neither by position nor by keyword. *)
Definition omitted (names : list string) (pos : list value)
    (kw : list (string * value)) (j : nat) (f : string) : Prop :=
  names !! j = Some f /\ length pos <= j /\ f ∉ kw.*1.

(** * Properties *)

Ltac unfold_monad :=
  unfold mbind, M_bind, mret, M_ret, bind, ret, raise, lift in *.

(** ** What [namedtuple] accepts *)

Lemma check_names_inr names :
  check_names names = inr tt <-> Forall (fun s => valid_name s = true) names.
Proof.
  induction names as [|name rest IH]; simpl.
  - split; auto.
  - rewrite Forall_cons. unfold valid_name at 1.
    destruct (Str.isidentifier name), (Str.iskeyword name); simpl;
      try (split; [discriminate | intros [? _]; discriminate]).
    rewrite IH. tauto.
Qed.

Lemma check_fields_inr seen names :
  check_fields seen names = inr tt <->
  Forall (fun s => Str.starts_with_underscore s = false) names /\
  NoDup names /\ (forall s, s ∈ names -> s ∉ seen).
Proof.
  revert seen. induction names as [|name rest IH]; intros seen; simpl.
  - split; [intros _|done]. repeat split; [constructor|constructor|set_solver].
  - rewrite Forall_cons, NoDup_cons.
    destruct (Str.starts_with_underscore name) eqn:Hu.
    { split; [discriminate | intros [[? _] _]; discriminate]. }
    case_bool_decide as Hin.
    { split; [discriminate | intros (_ & _ & Hs)]. exfalso. apply (Hs name); [set_solver|done]. }
    rewrite IH. split.
    + intros (Hf & Hn & Hs). repeat split; auto.
      * intros Hr. apply (Hs name Hr). set_solver.
      * intros s [->|Hr]%elem_of_cons; [done|]. specialize (Hs s Hr). set_solver.
    + intros ((_ & Hf) & (Hnr & Hn) & Hs). repeat split; auto.
      intros s Hr. specialize (Hs s). set_solver.
Qed.

(** [namedtuple] returns exactly on valid names, and then it has appended
    the class to the heap. *)
Lemma namedtuple_inr typename field_names h nt h' :
  namedtuple typename field_names h = (inr nt, h') <->
  valid_names typename (normalize_field_names field_names) /\
  nt = length (classes h) /\
  h' = Heap (classes h ++ [ClassObj typename (normalize_field_names field_names) None])
            (instances h).
Proof.
  unfold namedtuple, valid_names. unfold_monad. unfold alloc_class.
  set (names := normalize_field_names field_names).
  destruct (check_names (typename :: names)) as [e|[]] eqn:Hn.
  - split; [discriminate|]. intros ((Ht & Hf & _) & _).
    assert (check_names (typename :: names) = inr tt) as Hc; [|congruence].
    apply check_names_inr. constructor; [done|].
    eapply Forall_impl; [exact Hf|]. unfold valid_field.
    intros s Hs. apply andb_true_iff in Hs. tauto.
  - apply check_names_inr in Hn. apply Forall_cons in Hn as [Ht Hv].
    destruct (check_fields ∅ names) as [e|[]] eqn:Hf.
    + split; [discriminate|]. intros ((_ & Hvf & Hnd) & _).
      assert (check_fields ∅ names = inr tt) as Hc; [|congruence].
      apply check_fields_inr. split_and!; [|done|set_solver].
      eapply Forall_impl; [exact Hvf|]. unfold valid_field.
      intros s Hs. apply andb_true_iff in Hs as [_ Hs].
      by apply negb_true_iff in Hs.
    + apply check_fields_inr in Hf as (Hu & Hnd & _).
      split.
      * intros [= <- <-]. split_and!; try done.
        apply Forall_forall. intros s Hs. unfold valid_field.
        rewrite Forall_forall in Hv, Hu.
        rewrite (Hv s Hs), (Hu s Hs). done.
      * intros (_ & -> & ->). done.
Qed.

(** What the factory returns, when it returns. *)
Lemma namedtuple_defaults_inr typename field_names defaults h nt h' :
  namedtuple_defaults typename field_names defaults h = (inr nt, h') <->
  valid_names typename (normalize_field_names field_names) /\
  (exists items, defaults = Tuple items /\
     nt = length (classes h) /\
     h' = Heap (classes h ++
                  [ClassObj typename (normalize_field_names field_names) (Some items)])
               (instances h)).
Proof.
  unfold namedtuple_defaults. unfold_monad.
  destruct (namedtuple typename field_names h) as [[e|c] h1] eqn:Hnt.
  - split; [discriminate|]. intros (Hv & items & -> & -> & ->).
    assert (namedtuple typename field_names h =
            (inr (length (classes h)),
             Heap (classes h ++ [ClassObj typename (normalize_field_names field_names) None])
                  (instances h))) as Hc; [|congruence].
    by apply namedtuple_inr.
  - apply namedtuple_inr in Hnt as (Hv & -> & ->).
    unfold set_new_defaults, get_class, put_class. unfold_monad. simpl.
    rewrite lookup_app_r, Nat.sub_diag by lia. simpl.
    destruct defaults as [items|items]; simpl.
    all: try rewrite insert_app_r_alt, Nat.sub_diag by lia; simpl.
    + split.
      * intros [= <- <-]. split; [done|]. by exists items.
      * intros (_ & items' & [= <-] & -> & ->). done.
    + split; [discriminate|]. intros (_ & items' & [=] & _).
Qed.

(** ** The binding of arguments, slot by slot *)

Section BindingFacts.
Context {A : Type}.
Implicit Types (params : list string) (pos defaults : list A)
  (kw : list (string * A)) (slots : list (option A)).

Lemma index_of_Some name params j :
  index_of name params = Some j -> params !! j = Some name.
Proof.
  revert j. induction params as [|p rest IH]; intros j; simpl; [done|].
  case_decide as Hp.
  - intros [= <-]. by subst.
  - destruct (index_of name rest) as [i|]; simpl; [|done].
    intros [= <-]. by apply IH.
Qed.

Lemma index_of_None name params :
  index_of name params = None -> name ∉ params.
Proof.
  induction params as [|p rest IH]; simpl; [intros _; apply not_elem_of_nil|].
  case_decide as Hp; [done|].
  destruct (index_of name rest); simpl; [done|].
  intros _. apply not_elem_of_cons. split; [congruence|by apply IH].
Qed.

Lemma index_of_lookup name params j :
  NoDup params -> params !! j = Some name -> index_of name params = Some j.
Proof.
  intros Hnd Hj.
  destruct (index_of name params) as [i|] eqn:Hi.
  - apply index_of_Some in Hi. f_equal. by eapply NoDup_lookup.
  - apply index_of_None in Hi. exfalso. apply Hi.
    by eapply list_elem_of_lookup_2.
Qed.

Lemma lookup_kw_None name kw :
  lookup_kw name kw = None <-> name ∉ kw.*1.
Proof.
  induction kw as [|[k v] rest IH]; simpl.
  - split; [intros _; apply not_elem_of_nil|done].
  - rewrite not_elem_of_cons. case_decide as Hk.
    + split; [done|]. intros [Hne _]. congruence.
    + rewrite IH. split; [|tauto]. intros ?. split; [congruence|done].
Qed.

Lemma positional_slots_length argc pos :
  length (positional_slots argc pos) = argc.
Proof.
  unfold positional_slots.
  rewrite length_app, length_fmap, length_take, length_replicate. lia.
Qed.

Lemma positional_slots_lookup argc pos j :
  length pos <= argc -> j < argc ->
  positional_slots argc pos !! j = Some (pos !! j).
Proof.
  intros Hle Hj. unfold positional_slots.
  rewrite Nat.min_l by done. rewrite take_ge by done.
  destruct (decide (j < length pos)) as [Hlt|Hge].
  - rewrite lookup_app_l by (by rewrite length_fmap).
    rewrite list_lookup_fmap.
    destruct (lookup_lt_is_Some_2 pos j Hlt) as [v ->]. done.
  - rewrite lookup_app_r by (rewrite length_fmap; lia).
    rewrite length_fmap, lookup_replicate_2 by lia.
    by rewrite lookup_ge_None_2 by lia.
Qed.

Lemma bind_keywords_ok params slots kw :
  NoDup params -> NoDup kw.*1 ->
  (forall k, k ∈ kw.*1 ->
     exists j, params !! j = Some k /\ slots !! j = Some None) ->
  bind_keywords params slots kw = inr (imap (slot_after_kw params kw) slots).
Proof.
  intros Hnd. revert slots.
  induction kw as [|[k v] rest IH]; intros slots Hkw Hk; simpl.
  - f_equal. apply list_eq. intros j. rewrite list_lookup_imap.
    destruct (slots !! j) as [[x|]|]; simpl; try done.
    by destruct (params !! j).
  - simpl in Hkw. apply NoDup_cons in Hkw as [Hfresh Hkw].
    destruct (Hk k) as (j & Hj & Hs); [apply elem_of_cons; by left|].
    unfold bind_keyword; simpl.
    rewrite (index_of_lookup k params j Hnd Hj), Hs.
    rewrite IH; [|done|].
    + f_equal. apply list_eq. intros i. rewrite !list_lookup_imap.
      destruct (decide (i = j)) as [->|Hij].
      * rewrite list_lookup_insert_eq by (by eapply lookup_lt_Some).
        rewrite Hs. simpl. rewrite Hj. simpl. by rewrite decide_True.
      * rewrite list_lookup_insert_ne by done.
        destruct (slots !! i) as [[x|]|]; simpl; try done.
        destruct (params !! i) as [name|] eqn:Hi; simpl; [|done].
        rewrite decide_False; [done|].
        intros Heq. apply Hij.
        apply (NoDup_lookup params i j name); [done|done|congruence].
    + intros k' Hk'. destruct (Hk k') as (j' & Hj' & Hs'); [apply elem_of_cons; by right|].
      exists j'. split; [done|].
      rewrite list_lookup_insert_ne; [done|].
      intros ->. rewrite Hj in Hj'. injection Hj' as ->. done.
Qed.

Lemma all_filled_Some slots args :
  all_filled slots = Some args <-> slots = Some <$> args.
Proof.
  revert args. induction slots as [|[v|] rest IH]; intros args; simpl.
  - split; [intros [= <-]; done|]. by destruct args.
  - destruct (all_filled rest) as [vs|]; simpl.
    + split.
      * intros [= <-]. simpl. f_equal. by apply IH.
      * destruct args as [|x xs]; [done|]. intros [= -> Hr]. simpl in *.
        apply IH in Hr. congruence.
    + split; [done|]. destruct args as [|x xs]; [done|]. intros [= -> Hr].
      apply IH in Hr. done.
  - split; [done|]. by destruct args.
Qed.

Lemma all_filled_None slots :
  all_filled slots = None <-> exists j, slots !! j = Some None.
Proof.
  induction slots as [|[v|] rest IH]; simpl.
  - split; [done|]. intros [j Hj]. by rewrite lookup_nil in Hj.
  - destruct (all_filled rest) as [vs|]; simpl.
    + split; [done|]. intros [[|j] Hj]; simpl in Hj; [done|].
      assert (Some vs = None) as Hn by (apply IH; by exists j). done.
    + split; [|done]. intros _. destruct IH as [IH _].
      destruct (IH eq_refl) as [j Hj]. by exists (S j).
  - split; [|done]. intros _. by exists 0.
Qed.

Lemma elem_of_unfilled name params slots :
  length slots = length params ->
  name ∈ unfilled params slots <->
  exists j, params !! j = Some name /\ slots !! j = Some None.
Proof.
  revert slots. induction params as [|p rest IH]; intros [|s slots] Hlen;
    simpl in *; try done.
  - split; [by intros ?%elem_of_nil|]. intros (j & Hj & _). by rewrite lookup_nil in Hj.
  - injection Hlen as Hlen. specialize (IH slots Hlen).
    destruct s as [v|].
    + rewrite IH. split.
      * intros (j & ? & ?). by exists (S j).
      * intros ([|j] & Hp & Hs); simpl in *; [done|]. by exists j.
    + rewrite elem_of_cons, IH. split.
      * intros [->|(j & ? & ?)]; [by exists 0|by exists (S j)].
      * intros ([|j] & Hp & Hs); simpl in *; [left; congruence|right; by exists j].
Qed.

Lemma filled_slots params defaults pos kw :
  length pos <= length params ->
  imap (fill_slot (length params) defaults)
    (imap (slot_after_kw params kw) (positional_slots (length params) pos))
  = slot_value params defaults pos kw <$> seq 0 (length params).
Proof.
  intros Hle. apply list_eq. intros j.
  rewrite !list_lookup_imap, list_lookup_fmap.
  destruct (decide (j < length params)) as [Hj|Hj].
  - rewrite positional_slots_lookup, lookup_seq_lt by done. simpl.
    unfold slot_value, slot_after_kw, fill_slot.
    destruct (pos !! j); [done|].
    by destruct (params !! j ≫= _).
  - rewrite (lookup_ge_None_2 (positional_slots _ _))
      by (rewrite positional_slots_length; lia).
    by rewrite lookup_seq_ge by lia.
Qed.

Lemma bind_args_spec params defaults pos kw :
  NoDup params -> well_formed_call params pos kw ->
  bind_args params defaults pos kw =
  let filled := slot_value params defaults pos kw <$> seq 0 (length params) in
  match all_filled filled with
  | Some args => inr args
  | None => inl (TypeError_missing (unfilled params filled))
  end.
Proof.
  intros Hnd (Hle & Hkw & Hk). unfold bind_args.
  rewrite bind_keywords_ok; [|done|done|].
  - replace (length params <? length pos) with false
      by (symmetry; apply Nat.ltb_ge; lia).
    by rewrite filled_slots.
  - intros k Hin. destruct (Hk k Hin) as (j & Hj & Hge).
    exists j. split; [done|].
    rewrite positional_slots_lookup; [|done|by eapply lookup_lt_Some].
    by rewrite lookup_ge_None_2.
Qed.

End BindingFacts.

(** ** Construction, field by field *)

Lemma lookup_kw_fmap {A B} (f : A -> B) name (kw : list (string * A)) :
  lookup_kw name (prod_map id f <$> kw) = f <$> lookup_kw name kw.
Proof.
  induction kw as [|[k v] rest IH]; simpl; [done|]. by case_decide.
Qed.

Lemma keys_fmap {A B} (f : A -> B) (kw : list (string * A)) :
  (prod_map id f <$> kw).*1 = kw.*1.
Proof. induction kw as [|[k v] rest IH]; simpl; [done|]. by f_equal. Qed.

Lemma default_for_new (fields : list string) (ds : list value) j :
  default_for (S (length fields)) (ArgValue <$> ds) (S j) =
  ArgValue <$> (if decide (length fields <= j + length ds)
                then ds !! (j + length ds - length fields) else None).
Proof.
  unfold default_for. rewrite length_fmap, list_lookup_fmap.
  case_decide as Hc.
  - rewrite (proj2 (Z.ltb_ge _ _)) by lia. do 2 f_equal. lia.
  - by rewrite (proj2 (Z.ltb_lt _ _)) by lia.
Qed.

Lemma slot_value_new nt fields ds pos kw j :
  slot_value ("_cls" :: fields) (ArgValue <$> ds)
    (ArgClass nt :: (ArgValue <$> pos)) (prod_map id ArgValue <$> kw) (S j) =
  ArgValue <$> field_value fields ds pos kw j.
Proof.
  unfold slot_value, field_value. simpl.
  rewrite list_lookup_fmap. destruct (pos !! j); simpl; [done|].
  destruct (fields !! j) as [name|]; simpl.
  - rewrite lookup_kw_fmap. destruct (lookup_kw name kw); simpl; [done|].
    apply default_for_new.
  - apply default_for_new.
Qed.

Lemma all_filled_fmap {A B C} (g : B -> C) (f : A -> option B) (l : list A) :
  all_filled ((fun x => g <$> f x) <$> l) = fmap (M:=list) g <$> mapM f l.
Proof.
  induction l as [|x l IH]; [done|].
  rewrite fmap_cons. cbn [mapM].
  destruct (f x) as [y|]; [|done].
  cbn [all_filled fmap option_fmap option_map]. rewrite IH.
  by destruct (mapM f l).
Qed.

Lemma arg_values_fmap items : arg_values (ArgValue <$> items) = Some items.
Proof.
  induction items as [|v rest IH]; [done|].
  rewrite fmap_cons. cbn [arg_values arg_value]. by rewrite IH.
Qed.

Lemma unfilled_fmap {A B} (g : A -> B) params (slots : list (option A)) :
  unfilled params (fmap (M:=option) g <$> slots) = unfilled params slots.
Proof.
  revert slots. induction params as [|p rest IH]; intros [|[v|] slots];
    try done; rewrite fmap_cons; cbn [unfilled fmap option_fmap option_map];
    by rewrite IH.
Qed.

(** What [__new__] binds when the class is called. *)
Lemma new_args nt fields ds pos kw :
  NoDup fields -> "_cls" ∉ fields -> well_formed_call fields pos kw ->
  bind_args ("_cls" :: fields) (ArgValue <$> ds)
    (ArgClass nt :: (ArgValue <$> pos)) (prod_map id ArgValue <$> kw) =
  match mapM (field_value fields ds pos kw) (seq 0 (length fields)) with
  | Some items => inr (ArgClass nt :: (ArgValue <$> items))
  | None =>
      inl (TypeError_missing
             (unfilled fields
                (field_value fields ds pos kw <$> seq 0 (length fields))))
  end.
Proof.
  intros Hnd Hcls (Hle & Hkw & Hk).
  rewrite bind_args_spec.
  - cbv zeta. simpl length. rewrite <- cons_seq, <- fmap_S_seq.
    rewrite fmap_cons, <- list_fmap_compose.
    replace (slot_value _ _ _ _ 0) with (Some (ArgClass nt)) by done.
    erewrite (list_fmap_ext _ (fun j => ArgValue <$> field_value fields ds pos kw j));
      [|intros i j _; apply slot_value_new].
    simpl all_filled. rewrite all_filled_fmap.
    destruct (mapM _ _) as [items|]; [done|].
    cbn [fmap option_fmap option_map unfilled]. do 2 f_equal.
    rewrite <- (unfilled_fmap ArgValue fields).
    by rewrite <- list_fmap_compose.
  - by apply NoDup_cons.
  - split_and!.
    + simpl. rewrite length_fmap. lia.
    + by rewrite keys_fmap.
    + intros k Hin. rewrite keys_fmap in Hin.
      destruct (Hk k Hin) as (j & Hj & Hge). exists (S j). split; [done|].
      simpl. rewrite length_fmap. lia.
Qed.

Lemma first_repeated_None {A} seen (kw : list (string * A)) :
  first_repeated seen kw = None <->
  NoDup kw.*1 /\ forall k, k ∈ kw.*1 -> k ∉ seen.
Proof.
  revert seen. induction kw as [|[k v] rest IH]; intros seen; simpl.
  - split; [intros _|done]. split; [constructor|set_solver].
  - rewrite NoDup_cons. case_bool_decide as Hin.
    { split; [done|]. intros [_ Hs]. exfalso. apply (Hs k); [set_solver|done]. }
    rewrite IH. split.
    + intros [Hnd Hs]. split_and!; [|done|].
      * intros Hr. apply (Hs k Hr). set_solver.
      * intros k' [->|Hr]%elem_of_cons; [done|]. specialize (Hs k' Hr). set_solver.
    + intros [[Hk Hnd] Hs]. split; [done|].
      intros k' Hr. specialize (Hs k'). set_solver.
Qed.

(** The call gathers its keywords without error exactly when their names
    are distinct. *)
Lemma check_keywords_inr {A} (kw : list (string * A)) :
  check_keywords kw = inr tt <-> NoDup kw.*1.
Proof.
  unfold check_keywords.
  destruct (first_repeated ∅ kw) as [k|] eqn:Hr.
  - split; [done|]. intros Hnd.
    assert (first_repeated ∅ kw = None) as Hn; [|congruence].
    apply first_repeated_None. split; [done|set_solver].
  - split; [|done]. intros _. by apply first_repeated_None in Hr as [Hnd _].
Qed.

Lemma well_formed_keywords {A} params (pos : list A) kw :
  well_formed_call params pos kw -> NoDup kw.*1.
Proof. by intros (_ & Hnd & _). Qed.

Lemma construct_unfold nt cls pos kw h :
  classes h !! nt = Some cls ->
  NoDup kw.*1 ->
  construct nt pos kw h =
  match bind_args ("_cls" :: cls_fields cls) (ArgValue <$> the_defaults cls)
          (ArgClass nt :: (ArgValue <$> pos)) (prod_map id ArgValue <$> kw) with
  | inl e => (inl e, h)
  | inr args => tuple_new args h
  end.
Proof.
  intros Hc Hkw. unfold construct, get_class. unfold_monad. rewrite Hc.
  rewrite (proj2 (check_keywords_inr kw) Hkw).
  by destruct (bind_args _ _ _ _).
Qed.

(** A well-formed call whose fields all get a value allocates the tuple of
    these values. *)
Lemma construct_ok nt cls pos kw h items :
  classes h !! nt = Some cls ->
  NoDup (cls_fields cls) -> "_cls" ∉ cls_fields cls ->
  well_formed_call (cls_fields cls) pos kw ->
  mapM (field_value (cls_fields cls) (the_defaults cls) pos kw)
    (seq 0 (length (cls_fields cls))) = Some items ->
  construct nt pos kw h =
  (inr (length (instances h)),
   Heap (classes h) (instances h ++ [InstanceObj nt items])).
Proof.
  intros Hc Hnd Hcls Hwf Hitems.
  rewrite (construct_unfold _ _ _ _ _ Hc (well_formed_keywords _ _ _ Hwf)).
  rewrite new_args, Hitems by done.
  unfold tuple_new. by rewrite arg_values_fmap.
Qed.

(** A well-formed call that leaves a field without value raises, naming
    the field, and allocates nothing. *)
Lemma construct_missing nt cls pos kw h j f :
  classes h !! nt = Some cls ->
  NoDup (cls_fields cls) -> "_cls" ∉ cls_fields cls ->
  well_formed_call (cls_fields cls) pos kw ->
  cls_fields cls !! j = Some f ->
  field_value (cls_fields cls) (the_defaults cls) pos kw j = None ->
  exists names,
    construct nt pos kw h = (inl (TypeError_missing names), h) /\ f ∈ names.
Proof.
  intros Hc Hnd Hcls Hwf Hj Hnone.
  rewrite (construct_unfold _ _ _ _ _ Hc (well_formed_keywords _ _ _ Hwf)).
  rewrite new_args by done.
  assert (Hlt : j < length (cls_fields cls)) by (by eapply lookup_lt_Some).
  destruct (mapM _ _) as [items|] eqn:Hm.
  - exfalso. apply mapM_Some in Hm.
    assert (seq 0 (length (cls_fields cls)) !! j = Some j) as Hs
      by (by apply lookup_seq_lt).
    destruct (Forall2_lookup_l _ _ _ _ _ Hm Hs) as (v & _ & Hv). congruence.
  - eexists. split; [done|].
    apply elem_of_unfilled; [by rewrite length_fmap, length_seq|].
    exists j. split; [done|].
    by rewrite list_lookup_fmap, lookup_seq_lt, <- Hnone.
Qed.

(** ** Calls that return were well formed *)

Lemma bind_keywords_inr {A} params (slots slots' : list (option A)) kw :
  NoDup params ->
  bind_keywords params slots kw = inr slots' ->
  NoDup kw.*1 /\
  forall k, k ∈ kw.*1 -> exists j, params !! j = Some k /\ slots !! j = Some None.
Proof.
  intros Hnd. revert slots.
  induction kw as [|[k v] rest IH]; intros slots; simpl.
  - intros _. split; [constructor|]. by intros k ?%elem_of_nil.
  - unfold bind_keyword; simpl.
    destruct (index_of k params) as [j|] eqn:Hi; [|done].
    apply index_of_Some in Hi.
    destruct (slots !! j) as [[x|]|] eqn:Hs; try done.
    intros Hrest. destruct (IH _ Hrest) as [Hkw Hk].
    split.
    + apply NoDup_cons. split; [|done].
      intros Hin. destruct (Hk k Hin) as (j' & Hj' & Hs').
      assert (j' = j) as -> by (by apply (NoDup_lookup params j' j k)).
      rewrite list_lookup_insert_eq in Hs' by (by eapply lookup_lt_Some). done.
    + intros k' [->|Hin]%elem_of_cons; [by exists j|].
      destruct (Hk k' Hin) as (j' & Hj' & Hs'). exists j'. split; [done|].
      destruct (decide (j = j')) as [->|Hne].
      * rewrite list_lookup_insert_eq in Hs' by (by eapply lookup_lt_Some). done.
      * by rewrite list_lookup_insert_ne in Hs'.
Qed.

Lemma bind_args_inr {A} params (defaults pos args : list A) kw :
  NoDup params ->
  bind_args params defaults pos kw = inr args ->
  well_formed_call params pos kw.
Proof.
  intros Hnd. unfold bind_args.
  destruct (bind_keywords _ _ kw) as [e|slots] eqn:Hb; [done|].
  destruct (length params <? length pos) eqn:Hlen; [done|].
  apply Nat.ltb_ge in Hlen. intros _.
  destruct (bind_keywords_inr _ _ _ _ Hnd Hb) as [Hkw Hk].
  split_and!; [done|done|].
  intros k Hin. destruct (Hk k Hin) as (j & Hj & Hs). exists j. split; [done|].
  rewrite positional_slots_lookup in Hs; [|done|by eapply lookup_lt_Some].
  injection Hs as Hs. by apply lookup_ge_None.
Qed.

(** A construction returns exactly when the call is well formed and every
    field gets a value; it then allocates the tuple of these values. *)
Lemma construct_inr nt cls pos kw h a h2 :
  classes h !! nt = Some cls ->
  NoDup (cls_fields cls) -> "_cls" ∉ cls_fields cls ->
  construct nt pos kw h = (inr a, h2) ->
  well_formed_call (cls_fields cls) pos kw /\
  exists items,
    mapM (field_value (cls_fields cls) (the_defaults cls) pos kw)
      (seq 0 (length (cls_fields cls))) = Some items /\
    a = length (instances h) /\
    h2 = Heap (classes h) (instances h ++ [InstanceObj nt items]).
Proof.
  intros Hc Hnd Hcls Hret.
  assert (Hdist : NoDup kw.*1).
  { apply check_keywords_inr. revert Hret.
    unfold construct, get_class. unfold_monad. rewrite Hc.
    by destruct (check_keywords kw) as [e|[]]. }
  assert (Hwf : well_formed_call (cls_fields cls) pos kw).
  { rewrite (construct_unfold _ _ _ _ _ Hc Hdist) in Hret.
    destruct (bind_args _ _ _ _) as [e|args] eqn:Hb; [done|].
    apply bind_args_inr in Hb as (Hle & Hkw & Hk); [|by apply NoDup_cons].
    simpl in Hle. rewrite length_fmap in Hle. rewrite keys_fmap in Hkw, Hk.
    split_and!; [lia|done|].
    intros k Hin. destruct (Hk k Hin) as ([|j] & Hj & Hge);
      simpl in Hge; rewrite length_fmap in Hge; [lia|].
    exists j. split; [done|lia]. }
  split; [done|].
  rewrite (construct_unfold _ _ _ _ _ Hc Hdist), new_args in Hret by done.
  destruct (mapM _ _) as [items|]; [|done].
  exists items. split; [done|].
  unfold tuple_new in Hret. rewrite arg_values_fmap in Hret.
  unfold alloc_instance in Hret. by injection Hret as <- <-.
Qed.

(** ** Reading fields *)

Lemma getattr_field h a inst cls j f v :
  instances h !! a = Some inst ->
  classes h !! inst_class inst = Some cls ->
  NoDup (cls_fields cls) ->
  cls_fields cls !! j = Some f ->
  inst_items inst !! j = Some v ->
  getattr a f h = (inr v, h).
Proof.
  intros Ha Hc Hnd Hj Hv. unfold getattr, get_instance, get_class.
  unfold_monad. rewrite Ha, Hc.
  by rewrite (index_of_lookup f _ j Hnd Hj), Hv.
Qed.

Lemma mapM_seq_lookup {B} (f : nat -> option B) n items j :
  mapM f (seq 0 n) = Some items -> j < n -> items !! j = f j.
Proof.
  intros Hm Hj. apply mapM_Some in Hm.
  assert (seq 0 n !! j = Some j) as Hs by (by apply lookup_seq_lt).
  destruct (Forall2_lookup_l _ _ _ _ _ Hm Hs) as (v & -> & Hv). done.
Qed.

Lemma mapM_seq_intro {B} (f : nat -> option B) n items :
  length items = n -> (forall j, j < n -> f j = items !! j) ->
  mapM f (seq 0 n) = Some items.
Proof.
  intros Hlen Hf. apply mapM_Some. apply Forall2_same_length_lookup_2.
  - by rewrite length_seq.
  - intros i j v [-> Hi]%lookup_seq Hv. simpl. by rewrite Hf.
Qed.

(** The fields of a valid call of [namedtuple]. *)
Lemma valid_names_fields typename names :
  valid_names typename names -> NoDup names /\ "_cls" ∉ names.
Proof.
  intros (_ & Hf & Hnd). split; [done|].
  intros Hin. rewrite Forall_forall in Hf. by specialize (Hf _ Hin).
Qed.

(** ** Types produced by the factory *)

Lemma factory_class typename field_names defaults h nt h1 :
  namedtuple_defaults typename field_names defaults h = (inr nt, h1) ->
  exists ds, defaults = Tuple ds /\
    classes h1 !! nt =
      Some (ClassObj typename (normalize_field_names field_names) (Some ds)) /\
    NoDup (normalize_field_names field_names) /\
    "_cls" ∉ normalize_field_names field_names.
Proof.
  intros (Hv & ds & -> & -> & ->)%namedtuple_defaults_inr.
  exists ds. split; [done|]. split; [|by eapply valid_names_fields].
  simpl. by rewrite lookup_app_r, Nat.sub_diag by lia.
Qed.

Lemma factory_returns typename field_names ds h :
  valid_names typename (normalize_field_names field_names) ->
  namedtuple_defaults typename field_names (Tuple ds) h =
  (inr (length (classes h)),
   Heap (classes h ++
           [ClassObj typename (normalize_field_names field_names) (Some ds)])
        (instances h)).
Proof. intros Hv. apply namedtuple_defaults_inr. split; [done|]. by exists ds. Qed.

Lemma factory_construct typename field_names ds h nt h1 pos kw items :
  namedtuple_defaults typename field_names (Tuple ds) h = (inr nt, h1) ->
  well_formed_call (normalize_field_names field_names) pos kw ->
  mapM (field_value (normalize_field_names field_names) ds pos kw)
    (seq 0 (length (normalize_field_names field_names))) = Some items ->
  construct nt pos kw h1 =
  (inr (length (instances h1)),
   Heap (classes h1) (instances h1 ++ [InstanceObj nt items])).
Proof.
  intros (ds' & [= <-] & Hc & Hnd & Hcls)%factory_class Hwf Hitems.
  by apply (construct_ok _ _ _ _ _ _ Hc).
Qed.

(** Reading a field of the instance just allocated. *)
Lemma getattr_new h1 nt cls items j f v :
  classes h1 !! nt = Some cls ->
  NoDup (cls_fields cls) ->
  cls_fields cls !! j = Some f ->
  items !! j = Some v ->
  let h2 := Heap (classes h1) (instances h1 ++ [InstanceObj nt items]) in
  getattr (length (instances h1)) f h2 = (inr v, h2).
Proof.
  intros Hc Hnd Hj Hv h2.
  apply (getattr_field h2 _ (InstanceObj nt items) cls j); try done.
  unfold h2; simpl. by rewrite lookup_app_r, Nat.sub_diag by lia.
Qed.

(** ** Supplying a prefix of the fields *)

Lemma lookup_kw_zip {A} (ks : list string) (vs : list A) i name :
  NoDup ks -> ks !! i = Some name -> lookup_kw name (zip ks vs) = vs !! i.
Proof.
  revert vs i. induction ks as [|k ks IH]; intros vs i Hnd Hi; [done|].
  apply NoDup_cons in Hnd as [Hk Hnd].
  destruct vs as [|v vs]; [done|]. simpl.
  destruct i as [|i]; simpl in *.
  - injection Hi as ->. by rewrite decide_True.
  - rewrite decide_False; [by apply IH|].
    intros ->. apply Hk. by eapply list_elem_of_lookup_2.
Qed.

Lemma keys_zip {A} (ks : list string) (vs : list A) :
  (zip ks vs).*1 = take (length vs) ks.
Proof.
  revert vs. induction ks as [|k ks IH]; intros [|v vs]; simpl; try done.
  by rewrite IH.
Qed.

(** The call that gives the first fields by position, the following ones
    by keyword, and leaves out the last [k]. *)
Lemma prefix_call_well_formed (names : list string) (pos named : list value) :
  NoDup names ->
  length pos + length named <= length names ->
  well_formed_call names pos (zip (drop (length pos) names) named).
Proof.
  intros Hnd Hlen. split_and!; [lia| |].
  - rewrite keys_zip. eapply sublist_NoDup; [exact Hnd|].
    etrans; [apply sublist_take|apply sublist_drop].
  - intros key Hin. rewrite keys_zip in Hin.
    apply elem_of_take in Hin as (i & Hi & _). rewrite lookup_drop in Hi.
    exists (length pos + i). split; [done|lia].
Qed.

Lemma prefix_call_items (names : list string) (ds pos named : list value) k :
  NoDup names ->
  length pos + length named + k = length names ->
  k <= length ds ->
  mapM (field_value names ds pos (zip (drop (length pos) names) named))
    (seq 0 (length names))
  = Some (pos ++ named ++ drop (length ds - k) ds).
Proof.
  intros Hnd Hlen Hk. apply mapM_seq_intro.
  { rewrite !length_app, length_drop. lia. }
  intros j Hj. unfold field_value.
  destruct (decide (j < length pos)) as [Hp|Hp].
  - rewrite lookup_app_l by done.
    by destruct (lookup_lt_is_Some_2 pos j Hp) as [v ->].
  - rewrite (lookup_ge_None_2 pos) by lia.
    rewrite lookup_app_r by lia.
    destruct (lookup_lt_is_Some_2 names j Hj) as [name Hname].
    rewrite Hname. simpl.
    rewrite (lookup_kw_zip _ _ (j - length pos)).
    + destruct (decide (j - length pos < length named)) as [Hq|Hq].
      * rewrite lookup_app_l by done.
        by destruct (lookup_lt_is_Some_2 named _ Hq) as [v ->].
      * rewrite (lookup_ge_None_2 named) by lia.
        rewrite lookup_app_r by lia. rewrite decide_True by lia.
        rewrite lookup_drop. f_equal. lia.
    + eapply sublist_NoDup; [exact Hnd|apply sublist_drop].
    + rewrite lookup_drop. rewrite <- Hname. f_equal. lia.
Qed.

(** On a type of the factory, such a call builds the tuple of the given
    values followed by the last [k] defaults. *)
Lemma construct_prefix typename field_names ds h nt h1 pos named k :
  namedtuple_defaults typename field_names (Tuple ds) h = (inr nt, h1) ->
  length pos + length named + k = length (normalize_field_names field_names) ->
  k <= length ds ->
  construct nt pos
    (zip (drop (length pos) (normalize_field_names field_names)) named) h1 =
  (inr (length (instances h1)),
   Heap (classes h1)
     (instances h1 ++ [InstanceObj nt (pos ++ named ++ drop (length ds - k) ds)])).
Proof.
  intros Hf Hlen Hk.
  destruct (factory_class _ _ _ _ _ _ Hf) as (ds' & [= <-] & Hc & Hnd & _).
  apply (factory_construct _ _ _ _ _ _ _ _ _ Hf).
  - apply prefix_call_well_formed; [done|lia].
  - by apply prefix_call_items.
Qed.

(** ** Calls that leave out fields anywhere *)

Lemma lookup_kw_elem {A} (kw : list (string * A)) key v :
  NoDup kw.*1 -> (key, v) ∈ kw -> lookup_kw key kw = Some v.
Proof.
  induction kw as [|[k x] rest IH]; simpl; intros Hnd Hin.
  - by apply elem_of_nil in Hin.
  - apply NoDup_cons in Hnd as [Hk Hnd].
    apply elem_of_cons in Hin as [[= -> ->]|Hin]; [by rewrite decide_True|].
    rewrite decide_False; [by apply IH|].
    intros ->. apply Hk. apply list_elem_of_fmap. by exists (key, v).
Qed.

Lemma mapM_seq_total {B} (f : nat -> option B) n :
  (forall j, j < n -> is_Some (f j)) -> exists items, mapM f (seq 0 n) = Some items.
Proof.
  intros Hf. apply (mapM_is_Some_2 f). apply Forall_forall.
  intros j [_ Hj]%elem_of_seq. apply Hf. lia.
Qed.

(** A failed construction allocates nothing. *)
Lemma construct_inl nt pos kw h e h2 :
  construct nt pos kw h = (inl e, h2) -> h2 = h.
Proof.
  unfold construct, get_class. unfold_monad.
  destruct (classes h !! nt) as [cls|]; [|by intros [= _ <-]].
  destruct (check_keywords kw) as [e'|[]]; [by intros [= _ <-]|].
  destruct (bind_args _ _ _ _) as [e'|args]; [by intros [= _ <-]|].
  unfold tuple_new, alloc_instance. unfold_monad.
  destruct args as [|[c|v] rest]; try by intros [= _ <-].
  destruct (arg_values rest); [done|by intros [= _ <-]].
Qed.

(** ** Equality of tuples *)

Lemma tuple_eq_pointwise xs ys :
  length xs = length ys ->
  (forall j v w, xs !! j = Some v -> ys !! j = Some w -> py_eq v w = true) ->
  tuple_eq xs ys = true.
Proof.
  revert ys. induction xs as [|x xs IH]; intros [|y ys] Hlen Heq;
    simpl in *; try done.
  rewrite (Heq 0 x y) by done.
  apply IH; [lia|]. intros j v w Hv Hw. by apply (Heq (S j)).
Qed.

(** ** Splitting a joined list of names *)

Module StrFacts.
Import Str.

Lemma append_cons c s t : String c s +:+ t = String c (s +:+ t).
Proof. reflexivity. Qed.

Lemma append_nil_r s : s +:+ EmptyString = s.
Proof. induction s as [|c s IH]; [done|]. by rewrite append_cons, IH. Qed.

Lemma id_continue_not_delimiter c :
  is_id_continue c = true -> is_delimiter c = false.
Proof. destruct c as [[] [] [] [] [] [] [] []]; vm_compute; congruence. Qed.

Lemma replace_commas_append s t :
  replace_commas (s +:+ t) = replace_commas s +:+ replace_commas t.
Proof.
  induction s as [|c s IH]; [done|].
  rewrite append_cons. simpl. by rewrite IH.
Qed.

Lemma replace_commas_name s :
  all_chars is_id_continue s = true -> replace_commas s = s.
Proof.
  induction s as [|c s IH]; simpl; [done|].
  intros [Hc Hs]%andb_true_iff. rewrite IH by done.
  apply id_continue_not_delimiter in Hc. unfold is_delimiter in Hc.
  apply orb_false_iff in Hc as [_ ->]. done.
Qed.

Lemma replace_commas_delimiter sep :
  all_chars is_delimiter sep = true ->
  all_chars isspace (replace_commas sep) = true.
Proof.
  induction sep as [|c s IH]; simpl; [done|].
  intros [Hc Hs]%andb_true_iff. rewrite IH by done.
  unfold is_delimiter in Hc. destruct (code c =? 44); [done|].
  rewrite orb_false_r in Hc. by rewrite Hc.
Qed.

Lemma split_from_name cur s rest :
  all_chars is_id_continue s = true ->
  split_from cur (s +:+ rest)
  = split_from (rev (list_ascii_of_string s) ++ cur) rest.
Proof.
  revert cur. induction s as [|c s IH]; intros cur; simpl; [done|].
  intros [Hc Hs]%andb_true_iff.
  apply id_continue_not_delimiter in Hc. unfold is_delimiter in Hc.
  apply orb_false_iff in Hc as [-> _].
  rewrite IH by done. by rewrite <- app_assoc.
Qed.

Lemma split_from_spaces ws rest :
  all_chars isspace ws = true ->
  split_from [] (ws +:+ rest) = split_from [] rest.
Proof.
  induction ws as [|c s IH]; simpl; [done|].
  intros [Hc Hs]%andb_true_iff. rewrite Hc. by apply IH.
Qed.

Lemma split_from_end_of_word c cur ws rest :
  ws <> EmptyString -> all_chars isspace ws = true ->
  split_from (c :: cur) (ws +:+ rest)
  = word_of (c :: cur) :: split_from [] rest.
Proof.
  destruct ws as [|w ws]; [done|]. intros _. simpl.
  intros [Hw Hs]%andb_true_iff. rewrite Hw.
  f_equal. by apply split_from_spaces.
Qed.

Lemma word_of_rev s : word_of (rev (list_ascii_of_string s)) = s.
Proof.
  unfold word_of. by rewrite rev_involutive, string_of_list_ascii_of_string.
Qed.

Lemma name_chars s :
  isidentifier s = true ->
  all_chars is_id_continue s = true /\
  exists c cur, rev (list_ascii_of_string s) = c :: cur.
Proof.
  destruct s as [|c s]; [done|]. simpl.
  intros [Hc Hs]%andb_true_iff. split.
  - unfold is_id_continue at 1. by rewrite Hc, Hs.
  - destruct (rev (list_ascii_of_string s) ++ [c]) as [|x xs] eqn:Hr.
    + by apply app_eq_nil in Hr as [_ ?].
    + by exists x, xs.
Qed.

(** Splitting the names joined by a delimiter gives the names back. *)
Lemma split_join sep names :
  delimiter sep ->
  Forall (fun s => isidentifier s = true) names ->
  split (replace_commas (join sep names)) = names.
Proof.
  intros [Hne Hsep] Hnames. unfold split.
  induction Hnames as [|x rest Hx Hrest IH]; [done|].
  destruct (name_chars x Hx) as (Hchars & c & cur & Hrev).
  destruct rest as [|y rest].
  - simpl join. rewrite replace_commas_name by done.
    rewrite <- (append_nil_r x) at 1.
    rewrite split_from_name, app_nil_r by done.
    simpl. rewrite Hrev, <- Hrev. by rewrite word_of_rev.
  - change (join sep (x :: y :: rest)) with (x +:+ sep +:+ join sep (y :: rest)).
    rewrite !replace_commas_append, replace_commas_name by done.
    rewrite split_from_name, app_nil_r, Hrev by done.
    rewrite split_from_end_of_word.
    + rewrite <- Hrev, word_of_rev. by rewrite IH.
    + destruct sep; [done|]. simpl. discriminate.
    + by apply replace_commas_delimiter.
Qed.

End StrFacts.

(** ** Operations only add objects *)

Lemma extends_refl h : extends h h.
Proof. exists [], []. rewrite !app_nil_r. by destruct h. Qed.


Lemma extends_instance h inst :
  extends h (Heap (classes h) (instances h ++ [inst])).
Proof. exists [], [inst]. by rewrite app_nil_r. Qed.

Lemma construct_heap nt pos kw h :
  (construct nt pos kw h).2 = h \/
  exists inst,
    (construct nt pos kw h).2 = Heap (classes h) (instances h ++ [inst]).
Proof.
  destruct (construct nt pos kw h) as [[e|a] h2] eqn:Hcon; simpl.
  - left. by rewrite (construct_inl _ _ _ _ _ _ Hcon).
  - right. revert Hcon. unfold construct, get_class. unfold_monad.
    destruct (classes h !! nt) as [cls|]; [|done].
    destruct (check_keywords kw) as [e'|[]]; [done|].
    destruct (bind_args _ _ _ _) as [e'|args]; [done|].
    unfold tuple_new, alloc_instance. unfold_monad.
    destruct args as [|[c|v] rest]; try done.
    destruct (arg_values rest); [|done].
    intros [= _ <-]. by eexists.
Qed.

Lemma construct_classes nt pos kw h :
  classes (construct nt pos kw h).2 = classes h.
Proof. by destruct (construct_heap nt pos kw h) as [->|[inst ->]]. Qed.

Lemma construct_extends nt pos kw h : extends h (construct nt pos kw h).2.
Proof.
  destruct (construct_heap nt pos kw h) as [->|[inst ->]];
    [apply extends_refl|apply extends_instance].
Qed.

Lemma set_new_defaults_other nt defaults h c :
  c <> nt ->
  classes (set_new_defaults nt defaults h).2 !! c = classes h !! c.
Proof.
  intros Hne. unfold set_new_defaults, get_class, put_class. unfold_monad.
  destruct (classes h !! nt) as [cls|]; [|done].
  destruct defaults; simpl; [|done]. by rewrite list_lookup_insert_ne.
Qed.

Lemma factory_extends typename field_names defaults h :
  extends h (namedtuple_defaults typename field_names defaults h).2.
Proof.
  unfold namedtuple_defaults, namedtuple, alloc_class. unfold_monad.
  destruct (check_names _) as [e|[]]; [apply extends_refl|].
  destruct (check_fields _ _) as [e|[]]; [apply extends_refl|].
  unfold set_new_defaults, get_class, put_class. unfold_monad. simpl.
  rewrite lookup_app_r, Nat.sub_diag by lia. simpl.
  destruct defaults as [items|items]; simpl.
  - rewrite insert_app_r_alt, Nat.sub_diag by lia. simpl.
    eexists [_], []. by rewrite app_nil_r.
  - eexists [_], []. by rewrite app_nil_r.
Qed.

Lemma replace_extends a kw h : extends h (replace a kw h).2.
Proof.
  unfold replace, get_instance, get_class, alloc_instance. unfold_monad.
  destruct (instances h !! a) as [inst|]; [|apply extends_refl].
  destruct (check_keywords kw) as [e|[]]; [apply extends_refl|].
  unfold_monad. cbv beta iota.
  destruct (classes h !! inst_class inst) as [cls|]; [|apply extends_refl].
  simpl. destruct (negb _); [apply extends_instance|].
  destruct (forallb _ _); apply extends_instance.
Qed.

Lemma setattr_heap a name v h :
  (setattr a name v h).2 = h \/
  exists inst c cls,
    name = "__class__" /\ v = ArgClass c /\
    instances h !! a = Some inst /\ classes h !! c = Some cls /\
    (setattr a name v h).2
    = Heap (classes h) (<[a := InstanceObj c (inst_items inst)]> (instances h)).
Proof.
  unfold setattr, get_instance, get_class, put_instance. unfold_monad.
  destruct (instances h !! a) as [inst|] eqn:Ha; [|by left].
  case_decide as Hname; [|by left].
  destruct v as [c|v]; [|by left].
  destruct (classes h !! c) as [cls|] eqn:Hc; [|by left].
  right. by exists inst, c, cls.
Qed.

Lemma set_new_defaults_heap nt defaults h :
  (set_new_defaults nt defaults h).2 = h \/
  exists cls items,
    defaults = Tuple items /\ classes h !! nt = Some cls /\
    (set_new_defaults nt defaults h).2
    = Heap (<[nt := ClassObj (cls_name cls) (cls_fields cls) (Some items)]>
              (classes h))
           (instances h).
Proof.
  unfold set_new_defaults, get_class, put_class. unfold_monad.
  destruct (classes h !! nt) as [cls|] eqn:Hc; [|by left].
  destruct defaults as [items|items]; [|by left].
  right. by exists cls, items.
Qed.

(** An operation that changes nothing that exists only adds objects. *)
Lemma exec_extends o h : changes_existing o = false -> extends h (exec o h).
Proof.
  destruct o; simpl; intros Hplain; try done.
  - apply factory_extends.
  - apply construct_extends.
  - unfold getattr, get_instance, get_class. unfold_monad.
    repeat case_match; simplify_eq/=; apply extends_refl.
  - unfold getitem, get_instance. unfold_monad.
    repeat case_match; simplify_eq/=; apply extends_refl.
  - destruct (setattr_heap a name v h)
      as [->|(inst & c & cls & -> & -> & _)]; [apply extends_refl|].
    by vm_compute in Hplain.
  - unfold delattr, get_instance. unfold_monad.
    repeat case_match; simplify_eq/=; apply extends_refl.
  - unfold setitem, get_instance. unfold_monad.
    repeat case_match; simplify_eq/=; apply extends_refl.
  - unfold delitem, get_instance. unfold_monad.
    repeat case_match; simplify_eq/=; apply extends_refl.
  - apply replace_extends.
  - unfold instance_eq, get_instance. unfold_monad.
    repeat case_match; simplify_eq/=; apply extends_refl.
Qed.

Lemma keeps_refl h : keeps h h.
Proof. split; intros x y Hx; exists y; by rewrite Hx. Qed.

Lemma keeps_trans h1 h2 h3 : keeps h1 h2 -> keeps h2 h3 -> keeps h1 h3.
Proof.
  intros [Hi1 Hc1] [Hi2 Hc2]. split.
  - intros a inst Ha. destruct (Hi1 a inst Ha) as (inst' & Ha' & He).
    destruct (Hi2 a inst' Ha') as (inst'' & Ha'' & He').
    exists inst''. split; [done|congruence].
  - intros c cls Hc. destruct (Hc1 c cls Hc) as (cls' & Hc' & Hn & Hf).
    destruct (Hc2 c cls' Hc') as (cls'' & Hc'' & Hn' & Hf').
    exists cls''. split_and!; [done|congruence|congruence].
Qed.

Lemma extends_keeps h h' : extends h h' -> keeps h h'.
Proof.
  intros (nc & ni & ->). split; simpl.
  - intros a inst Ha. exists inst. split; [by apply lookup_app_l_Some|done].
  - intros c cls Hc. exists cls. split; [by apply lookup_app_l_Some|done].
Qed.

(** Every operation leaves the items of the instances and the names and
    fields of the classes. *)
Lemma exec_keeps o h : keeps h (exec o h).
Proof.
  destruct (changes_existing o) eqn:Hch;
    [|by apply extends_keeps, exec_extends].
  destruct o; simpl in *; try done.
  - destruct (setattr_heap a name v h)
      as [->|(inst & c & cls & -> & -> & Ha & Hc & ->)]; [apply keeps_refl|].
    split; simpl; [|intros c' cls' Hc'; by exists cls'].
    intros a' inst' Ha'. destruct (decide (a' = a)) as [->|Hne].
    + rewrite list_lookup_insert_eq by (by eapply lookup_lt_Some).
      eexists. split; [done|]. simpl. congruence.
    + rewrite list_lookup_insert_ne by done. by exists inst'.
  - destruct (set_new_defaults_heap nt defaults h)
      as [->|(cls & items & -> & Hc & ->)]; [apply keeps_refl|].
    split; simpl; [intros a' inst' Ha'; by exists inst'|].
    intros c' cls' Hc'. destruct (decide (c' = nt)) as [->|Hne].
    + rewrite list_lookup_insert_eq by (by eapply lookup_lt_Some).
      eexists. split; [done|]. simpl. split; congruence.
    + rewrite list_lookup_insert_ne by done. by exists cls'.
Qed.

Lemma field_value_omitted fields ds pos kw j f :
  omitted fields pos kw j f ->
  field_value fields ds pos kw j =
  if decide (length fields <= j + length ds)
  then ds !! (j + length ds - length fields) else None.
Proof.
  intros (Hj & Hpos & Hkw). unfold field_value.
  rewrite (lookup_ge_None_2 pos) by lia. rewrite Hj. simpl.
  by rewrite (proj2 (lookup_kw_None f kw)).
Qed.

Lemma construct_returns_class nt cls pos kw h :
  classes h !! nt = Some cls ->
  NoDup (cls_fields cls) -> "_cls" ∉ cls_fields cls ->
  (exists a h2, construct nt pos kw h = (inr a, h2)) <->
  well_formed_call (cls_fields cls) pos kw /\
  forall j f, omitted (cls_fields cls) pos kw j f ->
    length (cls_fields cls) <= j + length (the_defaults cls).
Proof.
  intros Hc Hnd Hcls. split.
  - intros (a & h2 & Hcon).
    destruct (construct_inr _ _ _ _ _ _ _ Hc Hnd Hcls Hcon)
      as (Hwf & items & Hitems & _).
    split; [done|]. intros j f Hom.
    assert (Hjn : j < length (cls_fields cls))
      by (destruct Hom as [Hj _]; by eapply lookup_lt_Some).
    pose proof (mapM_seq_lookup _ _ _ _ Hitems Hjn) as Hv.
    rewrite (field_value_omitted _ _ _ _ _ _ Hom) in Hv.
    case_decide; [done|]. exfalso.
    apply length_mapM in Hitems. rewrite length_seq in Hitems.
    apply lookup_ge_None in Hv. lia.
  - intros (Hwf & Hcov).
    destruct (mapM_seq_total
                (field_value (cls_fields cls) (the_defaults cls) pos kw)
                (length (cls_fields cls))) as [items Hitems].
    { intros j Hj.
      destruct (lookup_lt_is_Some_2 (cls_fields cls) j Hj) as [f Hf].
      unfold field_value. destruct (pos !! j) eqn:Hp; [done|].
      rewrite Hf. simpl. destruct (lookup_kw f kw) eqn:Hk; [done|].
      apply lookup_ge_None in Hp. apply lookup_kw_None in Hk.
      pose proof (Hcov j f (conj Hf (conj Hp Hk))) as Hle.
      rewrite decide_True by done. apply lookup_lt_is_Some_2. lia. }
    eexists _, _. by apply (construct_ok nt cls pos kw h items Hc).
Qed.

(** ** Every instance has one value per field *)

Lemma bind_keywords_inv {A} params (slots r : list (option A)) kw :
  bind_keywords params slots kw = inr r ->
  length r = length slots /\
  forall j v, slots !! j = Some (Some v) -> r !! j = Some (Some v).
Proof.
  revert slots. induction kw as [|kv kw IH]; intros slots; simpl.
  - intros [= <-]. done.
  - unfold bind_keyword.
    destruct (index_of kv.1 params) as [i|]; [|done].
    destruct (slots !! i) as [[y|]|] eqn:Hs; try done.
    intros Hr. destruct (IH _ Hr) as [Hlen Hkeep].
    rewrite length_insert in Hlen. split; [done|].
    intros j v Hj. apply Hkeep. rewrite list_lookup_insert_ne; [done|].
    intros ->. congruence.
Qed.

(** The arguments a method receives: its first argument, then one per
    further parameter. *)
Lemma bind_args_shape {A} p params (ds pos : list A) x kw args :
  bind_args (p :: params) ds (x :: pos) kw = inr args ->
  exists rest, args = x :: rest /\ length rest = length params.
Proof.
  unfold bind_args.
  destruct (bind_keywords _ _ kw) as [e|r] eqn:Hb; [done|].
  destruct (_ <? _); [done|].
  destruct (all_filled _) as [args'|] eqn:Hall; [|done].
  intros [= <-]. apply all_filled_Some in Hall.
  destruct (bind_keywords_inv _ _ _ _ Hb) as [Hlen Hkeep].
  rewrite positional_slots_length in Hlen.
  assert (Hhead : r !! 0 = Some (Some x)).
  { apply Hkeep. unfold positional_slots. by simpl. }
  assert (Hlen' : length args' = S (length params)).
  { pose proof (f_equal length Hall) as Heq.
    rewrite length_imap, length_fmap in Heq. simpl in Hlen. lia. }
  destruct args' as [|y rest]; [done|]. exists rest.
  split; [|simpl in Hlen'; lia].
  assert (imap (fill_slot (length (p :: params)) ds) r !! 0 = Some (Some y))
    as Hy by (by rewrite Hall).
  rewrite list_lookup_imap, Hhead in Hy. simpl in Hy. congruence.
Qed.

Lemma arg_values_length args items :
  arg_values args = Some items -> length items = length args.
Proof.
  revert items. induction args as [|a args IH]; intros items; simpl.
  - by intros [= <-].
  - destruct (arg_value a); [|done].
    destruct (arg_values args) as [vs|]; [|done].
    intros [= <-]. simpl. by rewrite (IH vs).
Qed.

(** A construction that returns has allocated an instance of the class
    called, with one item per field. *)
Lemma construct_new_instance nt pos kw h a h2 :
  construct nt pos kw h = (inr a, h2) ->
  exists cls items,
    classes h !! nt = Some cls /\
    length items = length (cls_fields cls) /\
    h2 = Heap (classes h) (instances h ++ [InstanceObj nt items]).
Proof.
  unfold construct, get_class. unfold_monad.
  destruct (classes h !! nt) as [cls|] eqn:Hc; [|done].
  destruct (check_keywords kw) as [e|[]]; [done|].
  destruct (bind_args _ _ _ _) as [e|args] eqn:Hb; [done|].
  apply bind_args_shape in Hb as (rest & -> & Hlen).
  unfold tuple_new, alloc_instance. unfold_monad.
  destruct (arg_values rest) as [items|] eqn:Hv; [|done].
  intros [= _ <-]. exists cls, items. split_and!; [done| |done].
  apply arg_values_length in Hv. lia.
Qed.

Lemma heap_wf_alloc h inst cls :
  heap_wf h ->
  classes h !! inst_class inst = Some cls ->
  length (inst_items inst) = length (cls_fields cls) ->
  heap_wf (Heap (classes h) (instances h ++ [inst])).
Proof.
  intros Hwf Hc Hlen a inst' Ha. simpl in *.
  apply lookup_app_Some in Ha as [Ha|[_ Ha]]; [by apply (Hwf a)|].
  apply list_lookup_singleton_Some in Ha as [_ <-]. by exists cls.
Qed.

Lemma heap_wf_classes h new_classes :
  heap_wf h -> heap_wf (Heap (classes h ++ new_classes) (instances h)).
Proof.
  intros Hwf a inst Ha. simpl in *.
  destruct (Hwf a inst Ha) as (cls & Hc & Hlen). exists cls.
  split; [by apply lookup_app_l_Some|done].
Qed.

Lemma factory_heap typename field_names defaults h :
  exists new_classes,
    (namedtuple_defaults typename field_names defaults h).2
    = Heap (classes h ++ new_classes) (instances h).
Proof.
  assert (Hsame : h = Heap (classes h ++ []) (instances h))
    by (rewrite app_nil_r; by destruct h).
  unfold namedtuple_defaults, namedtuple, alloc_class. unfold_monad.
  destruct (check_names _) as [e|[]]; [by exists []|].
  destruct (check_fields _ _) as [e|[]]; [by exists []|].
  unfold set_new_defaults, get_class, put_class. unfold_monad. simpl.
  rewrite lookup_app_r, Nat.sub_diag by lia. simpl.
  destruct defaults as [items|items]; simpl.
  - rewrite insert_app_r_alt, Nat.sub_diag by lia. simpl. by eexists [_].
  - by eexists [_].
Qed.

(** An operation that assigns no class keeps the heap well formed. *)
Lemma exec_wf o h : writes_class o = false -> heap_wf h -> heap_wf (exec o h).
Proof.
  intros Hplain Hwf. destruct o; simpl.
  - destruct (factory_heap typename field_names defaults h) as [nc ->].
    by apply heap_wf_classes.
  - destruct (construct nt pos kw h) as [[e|a] h2] eqn:Hcon; simpl.
    + by rewrite (construct_inl _ _ _ _ _ _ Hcon).
    + apply construct_new_instance in Hcon as (cls & items & Hc & Hlen & ->).
      by apply (heap_wf_alloc h (InstanceObj nt items) cls).
  - unfold getattr, get_instance, get_class. unfold_monad.
    repeat case_match; by simplify_eq/=.
  - unfold getitem, get_instance. unfold_monad.
    repeat case_match; by simplify_eq/=.
  - destruct (setattr_heap a name v h)
      as [->|(inst & c & cls & -> & -> & _)]; [done|].
    by vm_compute in Hplain.
  - unfold delattr, get_instance. unfold_monad.
    repeat case_match; by simplify_eq/=.
  - unfold setitem, get_instance. unfold_monad.
    repeat case_match; by simplify_eq/=.
  - unfold delitem, get_instance. unfold_monad.
    repeat case_match; by simplify_eq/=.
  - unfold replace, get_instance, get_class, alloc_instance. unfold_monad.
    destruct (instances h !! a) as [inst|] eqn:Ha; [|done].
    destruct (check_keywords kw) as [e|[]]; [done|].
    unfold_monad. cbv beta iota.
    destruct (classes h !! inst_class inst) as [cls|] eqn:Hc; [|done].
    destruct (Hwf a inst Ha) as (cls' & Hc' & Hlen).
    assert (cls' = cls) as -> by congruence.
    assert (heap_wf
              (Heap (classes h)
                 (instances h ++
                    [InstanceObj (inst_class inst)
                       (zip_with (fun name old => default old (lookup_kw name kw))
                          (cls_fields cls) (inst_items inst))]))) as Hnew.
    { apply (heap_wf_alloc h _ cls); [done|done|].
      simpl. rewrite length_zip_with. lia. }
    simpl. destruct (negb _); [done|]. by destruct (forallb _ _).
  - unfold instance_eq, get_instance. unfold_monad.
    repeat case_match; by simplify_eq/=.
  - destruct (set_new_defaults_heap nt defaults h)
      as [->|(cls & items & -> & Hc & ->)]; [done|].
    intros a inst Ha. simpl in *.
    destruct (Hwf a inst Ha) as (cls' & Hc' & Hlen).
    destruct (decide (inst_class inst = nt)) as [Heq|Hne].
    + rewrite Heq in *.
      rewrite list_lookup_insert_eq by (by eapply lookup_lt_Some).
      eexists. split; [done|]. simpl. congruence.
    + rewrite list_lookup_insert_ne by done. by exists cls'.
Qed.

Lemma index_of_elem name params :
  name ∈ params -> exists i, index_of name params = Some i.
Proof.
  intros Hin. destruct (index_of name params) as [i|] eqn:Hi; [by exists i|].
  by apply index_of_None in Hi.
Qed.

Lemma exec_all_wf ops h :
  Forall (fun o => writes_class o = false) ops ->
  heap_wf h -> heap_wf (exec_all ops h).
Proof.
  intros Hops. revert h.
  induction Hops as [|o ops Ho _ IH]; intros h Hwf; simpl; [done|].
  apply IH. by apply exec_wf.
Qed.

Lemma exec_all_keeps ops h : keeps h (exec_all ops h).
Proof.
  revert h. induction ops as [|o ops IH]; intros h; simpl.
  - apply keeps_refl.
  - eapply keeps_trans; [apply exec_keeps|apply IH].
Qed.


(** Without an assignment to [__class__] the instances stay as they
    are. *)
Lemma exec_instances o h a inst :
  writes_class o = false ->
  instances h !! a = Some inst ->
  instances (exec o h) !! a = Some inst.
Proof.
  intros Hplain Ha. destruct (changes_existing o) eqn:Hch.
  - destruct o; simpl in *; try congruence.
    by destruct (set_new_defaults_heap nt defaults h)
      as [->|(cls & items & -> & Hc & ->)].
  - destruct (exec_extends o h Hch) as (nc & ni & ->). simpl.
    by apply lookup_app_l_Some.
Qed.

(** Without an assignment to [__defaults__] the classes stay as they
    are. *)
Lemma exec_classes o h c cls :
  sets_defaults o = false ->
  classes h !! c = Some cls ->
  classes (exec o h) !! c = Some cls.
Proof.
  intros Hplain Hc. destruct (changes_existing o) eqn:Hch.
  - destruct o; simpl in *; try congruence.
    by destruct (setattr_heap a name v h)
      as [->|(inst & c' & cls' & -> & -> & _ & _ & ->)].
  - destruct (exec_extends o h Hch) as (nc & ni & ->). simpl.
    by apply lookup_app_l_Some.
Qed.

Lemma exec_all_classes ops h c cls :
  Forall (fun o => sets_defaults o = false) ops ->
  classes h !! c = Some cls ->
  classes (exec_all ops h) !! c = Some cls.
Proof.
  intros Hops. revert h.
  induction Hops as [|o ops Ho _ IH]; intros h Hc; simpl; [done|].
  apply IH. by apply exec_classes.
Qed.

Lemma exec_all_instances ops h a inst :
  Forall (fun o => writes_class o = false) ops ->
  instances h !! a = Some inst ->
  instances (exec_all ops h) !! a = Some inst.
Proof.
  intros Hops. revert h.
  induction Hops as [|o ops Ho _ IH]; intros h Ha; simpl; [done|].
  apply IH. by apply exec_instances.
Qed.

(** ** Equality is equality of the items *)







(** The first keyword that repeats an earlier one is the one reported. *)
Lemma first_repeated_app {A} (seen : gset string)
    (kw1 kw2 : list (string * A)) k v :
  NoDup kw1.*1 ->
  (forall x, x ∈ kw1.*1 -> x ∉ seen) ->
  k ∈ seen \/ k ∈ kw1.*1 ->
  first_repeated seen (kw1 ++ (k, v) :: kw2) = Some k.
Proof.
  revert seen.
  induction kw1 as [|[k1 v1] kw1 IH]; intros seen Hnd Hfresh Hk; simpl in *.
  - destruct Hk as [Hk|Hk]; [|by apply elem_of_nil in Hk].
    by rewrite bool_decide_eq_true_2.
  - apply NoDup_cons in Hnd as [Hk1 Hnd].
    rewrite bool_decide_eq_false_2 by (apply Hfresh; by left).
    apply IH; [done| |].
    + intros x Hx. rewrite elem_of_union, elem_of_singleton.
      intros [->|Hs]; [done|]. apply (Hfresh x); [by right|done].
    + rewrite elem_of_union, elem_of_singleton.
      rewrite elem_of_cons in Hk. tauto.
Qed.

(** ** The model on the notebook's types *)

Example site_factory :
  namedtuple_defaults "Site" (FieldStr "owner strength production")
    (Tuple [VInt 0; VInt 0; VInt 0]) empty_heap = (inr 0, site_heap).
Proof. reflexivity. Qed.

(** [Site(1, strength=2)] is [Site(owner=1, strength=2, production=0)]. *)
Example site_mixed_call :
  construct 0 [VInt 1] [("strength", VInt 2)] site_heap
  = (inr 0, Heap (classes site_heap) [InstanceObj 0 [VInt 1; VInt 2; VInt 0]]).
Proof. reflexivity. Qed.

(** [Site(1, 2, 3, 4)]: too many positional arguments ([__new__] counts the
    class as one). *)
Example site_too_many :
  construct 0 [VInt 1; VInt 2; VInt 3; VInt 4] [] site_heap
  = (inl (TypeError_too_many_positional 5), site_heap).
Proof. reflexivity. Qed.

(** [Site(1, owner=2)]: [owner] is given twice. *)
Example site_given_twice :
  construct 0 [VInt 1] [("owner", VInt 2)] site_heap
  = (inl (TypeError_multiple_values "owner"), site_heap).
Proof. reflexivity. Qed.

(** Keywords are bound before the positional arguments are counted:
    [Site(1, 2, 3, 4, z=5)] reports the keyword. *)
Example site_keyword_first :
  construct 0 [VInt 1; VInt 2; VInt 3; VInt 4] [("z", VInt 5)] site_heap
  = (inl (TypeError_unexpected_keyword "z"), site_heap).
Proof. reflexivity. Qed.

(** The list of one string in the notebook's third cell,
    [namedtuple('Site', ['owner strength production'])], is not split: the
    single name is not an identifier. *)
Example site_one_name :
  (namedtuple "Site" (FieldSeq ["owner strength production"]) empty_heap).1
  = inl (ValueError_not_identifier "owner strength production").
Proof. reflexivity. Qed.

(** Commas and runs of white space both separate names. *)
Example split_names :
  normalize_field_names (FieldStr " a, b ,,c  d ") = ["a"; "b"; "c"; "d"].
Proof. reflexivity. Qed.

(** * The claims *)

(** C1, as stated, fails: for the fields a, b, c, d the list [[10, 20]]
    is valid as [defaults] by the claim (no longer than the fields), yet
    the factory raises at the assignment to [__defaults__] and returns no
    type to construct from. *)
Lemma list_defaults_give_no_type :
  valid_names "T" (normalize_field_names (FieldStr "a b c d")) /\
  length [VInt 10; VInt 20]
    <= length (normalize_field_names (FieldStr "a b c d")) /\
  (namedtuple_defaults "T" (FieldStr "a b c d")
     (List [VInt 10; VInt 20]) empty_heap).1
  = inl TypeError_defaults_not_tuple.
Proof.
  split_and!; [|vm_compute; lia|reflexivity].
  split_and!; [done| |]; vm_compute; repeat constructor; set_solver.
Qed.

(** C1, amended.  With valid, distinct field names and a tuple of no more
    defaults than fields, the factory returns a type.  The type accepts a
    call that supplies all fields, and a call that leaves out the last [k]
    fields for any [k <= len(defaults)]; the instance holds the supplied
    values followed by the last [k] entries of [defaults], in order.  (The
    supplied values are given by position, [pos], or by keyword,
    [named].) *)
Theorem trailing_fields_take_defaults typename field_names ds h :
  valid_names typename (normalize_field_names field_names) ->
  length ds <= length (normalize_field_names field_names) ->
  exists nt h1,
    namedtuple_defaults typename field_names (Tuple ds) h = (inr nt, h1) /\
    forall (k : nat) (pos named : list value),
      k <= length ds ->
      length pos + length named + k
        = length (normalize_field_names field_names) ->
      exists a h2,
        construct nt pos
          (zip (drop (length pos) (normalize_field_names field_names)) named)
          h1 = (inr a, h2) /\
        instances h2 !! a =
          Some (InstanceObj nt (pos ++ named ++ drop (length ds - k) ds)).
Proof.
  intros Hv Hds.
  pose proof (factory_returns typename field_names ds h Hv) as Hf.
  eexists _, _. split; [exact Hf|].
  intros k pos named Hk Hlen. eexists _, _. split.
  - by apply (construct_prefix _ _ _ _ _ _ pos named k Hf).
  - simpl. by rewrite lookup_app_r, Nat.sub_diag by lia.
Qed.

Lemma trailing_fields_take_defaults_witness :
  exists nt h1,
    namedtuple_defaults "T" (FieldStr "a b c d") (Tuple [VInt 10; VInt 20])
      empty_heap = (inr nt, h1) /\
    forall (k : nat) (pos named : list value),
      k <= 2 ->
      length pos + length named + k = 4 ->
      exists a h2,
        construct nt pos (zip (drop (length pos) ["a"; "b"; "c"; "d"]) named)
          h1 = (inr a, h2) /\
        instances h2 !! a =
          Some (InstanceObj nt
                  (pos ++ named ++ drop (2 - k) [VInt 10; VInt 20])).
Proof.
  apply (trailing_fields_take_defaults "T" (FieldStr "a b c d")
           [VInt 10; VInt 20] empty_heap).
  - split_and!; [done| |]; vm_compute; repeat constructor; set_solver.
  - vm_compute. lia.
Defined.

(** C2, as stated, fails: with three defaults for the two fields of
    [Location] the factory raises nothing and returns the type. *)
Lemma surplus_defaults_accepted :
  length [VInt 1; VInt 2; VInt 3]
    > length (normalize_field_names (FieldStr "x y")) /\
  namedtuple_defaults "Location" (FieldStr "x y")
    (Tuple [VInt 1; VInt 2; VInt 3]) empty_heap
  = (inr 0,
     Heap [ClassObj "Location" ["x"; "y"] (Some [VInt 1; VInt 2; VInt 3])] []).
Proof. split; [vm_compute; lia|reflexivity]. Qed.

(** C2, amended.  With valid names and a tuple of more defaults than
    fields, the factory raises nothing and returns the type.  Every field
    of that type has a default: a call that gives the first fields by
    position gets the others from the end of [defaults], and the defaults
    in excess, at the front, are never used. *)
Theorem surplus_defaults_ignored typename field_names ds h :
  valid_names typename (normalize_field_names field_names) ->
  length (normalize_field_names field_names) < length ds ->
  exists nt h1,
    namedtuple_defaults typename field_names (Tuple ds) h = (inr nt, h1) /\
    forall (k : nat) (pos : list value),
      length pos + k = length (normalize_field_names field_names) ->
      exists a h2,
        construct nt pos [] h1 = (inr a, h2) /\
        instances h2 !! a =
          Some (InstanceObj nt (pos ++ drop (length ds - k) ds)).
Proof.
  intros Hv Hds.
  pose proof (factory_returns typename field_names ds h Hv) as Hf.
  eexists _, _. split; [exact Hf|].
  intros k pos Hlen. eexists _, _. split.
  - pose proof (construct_prefix _ _ _ _ _ _ pos [] k Hf) as Hc.
    rewrite zip_with_nil_r in Hc. apply Hc; simpl; lia.
  - simpl. by rewrite lookup_app_r, Nat.sub_diag by lia.
Qed.

Lemma surplus_defaults_ignored_witness :
  exists nt h1,
    namedtuple_defaults "Location" (FieldStr "x y")
      (Tuple [VInt 1; VInt 2; VInt 3]) empty_heap = (inr nt, h1) /\
    forall (k : nat) (pos : list value),
      length pos + k = 2 ->
      exists a h2,
        construct nt pos [] h1 = (inr a, h2) /\
        instances h2 !! a =
          Some (InstanceObj nt (pos ++ drop (3 - k) [VInt 1; VInt 2; VInt 3])).
Proof.
  apply (surplus_defaults_ignored "Location" (FieldStr "x y")
           [VInt 1; VInt 2; VInt 3] empty_heap).
  - split_and!; [done| |]; vm_compute; repeat constructor; set_solver.
  - vm_compute. lia.
Defined.

(** C3, as stated, fails: a list of two defaults for the two fields of
    [Location] is refused by the assignment to [__defaults__], and no type
    is returned. *)
Lemma list_defaults_refused :
  length [VInt 0; VInt 0]
    <= length (normalize_field_names (FieldStr "x y")) /\
  (namedtuple_defaults "Location" (FieldStr "x y")
     (List [VInt 0; VInt 0]) empty_heap).1
  = inl TypeError_defaults_not_tuple.
Proof. split; [vm_compute; lia|reflexivity]. Qed.

(** C3, amended.  With valid names, every tuple of values whose length is
    between 0 and the number of fields is accepted as [defaults]: the
    factory returns the type, with that tuple as the defaults of its
    constructor.  The same values in a list are refused. *)
Theorem tuple_defaults_accepted typename field_names ds h :
  valid_names typename (normalize_field_names field_names) ->
  length ds <= length (normalize_field_names field_names) ->
  (exists nt h1,
     namedtuple_defaults typename field_names (Tuple ds) h = (inr nt, h1) /\
     classes h1 !! nt =
       Some (ClassObj typename (normalize_field_names field_names) (Some ds))) /\
  (namedtuple_defaults typename field_names (List ds) h).1
    = inl TypeError_defaults_not_tuple.
Proof.
  intros Hv _. split.
  - pose proof (factory_returns typename field_names ds h Hv) as Hf.
    eexists _, _. split; [exact Hf|].
    by destruct (factory_class _ _ _ _ _ _ Hf) as (ds' & [= <-] & Hc & _).
  - unfold namedtuple_defaults. unfold_monad.
    rewrite (proj2 (namedtuple_inr typename field_names h _ _)
               (conj Hv (conj eq_refl eq_refl))).
    unfold set_new_defaults, get_class. unfold_monad. simpl.
    by rewrite lookup_app_r, Nat.sub_diag by lia.
Qed.

Lemma tuple_defaults_accepted_witness :
  (exists nt h1,
     namedtuple_defaults "Site" (FieldStr "owner strength production")
       (Tuple [VInt 0; VInt 0; VInt 0]) empty_heap = (inr nt, h1) /\
     classes h1 !! nt =
       Some (ClassObj "Site" ["owner"; "strength"; "production"]
               (Some [VInt 0; VInt 0; VInt 0]))) /\
  (namedtuple_defaults "Site" (FieldStr "owner strength production")
     (List [VInt 0; VInt 0; VInt 0]) empty_heap).1
    = inl TypeError_defaults_not_tuple.
Proof.
  apply (tuple_defaults_accepted "Site" (FieldStr "owner strength production")
           [VInt 0; VInt 0; VInt 0] empty_heap).
  - split_and!; [done| |]; vm_compute; repeat constructor; set_solver.
  - vm_compute. lia.
Defined.

(** C4.  On a type of the factory, take a construction that leaves out a
    field with no default: no positional argument reaches it and no
    keyword names it.  When leaving out fields is the only fault of the
    call, that is when the call is well formed, it raises the error for
    missing arguments, which names the field, and allocates no instance.
    With another fault as well it still raises and allocates nothing. *)
Theorem missing_field_fails
    typename field_names defaults h nt h1 pos kw j f :
  namedtuple_defaults typename field_names defaults h = (inr nt, h1) ->
  normalize_field_names field_names !! j = Some f ->
  j + length (seq_items defaults) < length (normalize_field_names field_names) ->
  length pos <= j ->
  f ∉ kw.*1 ->
  (well_formed_call (normalize_field_names field_names) pos kw ->
   exists missing,
     construct nt pos kw h1 = (inl (TypeError_missing missing), h1) /\
     f ∈ missing) /\
  (exists e, construct nt pos kw h1 = (inl e, h1)).
Proof.
  intros Hf Hj Hnodef Hpos Hkw.
  destruct (factory_class _ _ _ _ _ _ Hf) as (ds & -> & Hc & Hnd & Hcls).
  simpl in Hnodef.
  set (names := normalize_field_names field_names) in *.
  assert (Hnone : field_value names ds pos kw j = None).
  { unfold field_value. rewrite (lookup_ge_None_2 pos) by lia.
    rewrite Hj. simpl.
    rewrite (proj2 (lookup_kw_None f kw)) by done.
    by rewrite decide_False by lia. }
  assert (Hwf_fails : well_formed_call names pos kw ->
            exists missing,
              construct nt pos kw h1 = (inl (TypeError_missing missing), h1) /\
              f ∈ missing).
  { intros Hwf. by apply (construct_missing nt _ pos kw h1 j f Hc). }
  split; [done|].
  destruct (construct nt pos kw h1) as [[e|a] h2] eqn:Hcon.
  - exists e. by rewrite (construct_inl _ _ _ _ _ _ Hcon).
  - destruct (construct_inr _ _ _ _ _ _ _ Hc Hnd Hcls Hcon) as [Hwf _].
    destruct (Hwf_fails Hwf) as (missing & [=] & _).
Qed.

Lemma missing_field_fails_witness :
  let h1 := Heap [ClassObj "T" ["a"; "b"; "c"; "d"] (Some [VInt 10; VInt 20])] [] in
  (exists missing,
     construct 0 [] [("d", VInt 4)] h1 = (inl (TypeError_missing missing), h1) /\
     "b" ∈ missing) /\
  (exists e, construct 0 [] [("d", VInt 4)] h1 = (inl e, h1)).
Proof.
  assert (Hwf : well_formed_call ["a"; "b"; "c"; "d"] [] [("d", VInt 4)]).
  { split_and!; [simpl; lia|simpl; apply NoDup_singleton|].
    intros k Hk. simpl in Hk. apply list_elem_of_singleton in Hk as ->.
    exists 3. split; [reflexivity|simpl; lia]. }
  pose proof (missing_field_fails "T" (FieldStr "a b c d")
                (Tuple [VInt 10; VInt 20]) empty_heap 0
                (Heap [ClassObj "T" ["a"; "b"; "c"; "d"]
                         (Some [VInt 10; VInt 20])] [])
                [] [("d", VInt 4)] 1 "b") as Hthm.
  destruct Hthm as [Hmissing Hfails].
  - reflexivity.
  - reflexivity.
  - vm_compute. lia.
  - simpl. lia.
  - simpl. intros Hin. by apply list_elem_of_singleton in Hin.
  - split; [exact (Hmissing Hwf)|exact Hfails].
Defined.

(** C5.  [Location = namedtuple_defaults('Location', 'x y', (0, 0))]:
    [Location()] has [x = 0] and [y = 0]; [Location(x=5)] has [x = 5] and
    [y = 0]; [Location(x=5, y=9)] has [x = 5] and [y = 9]. *)
Theorem location_scenario (h : heap) :
  exists Location h1,
    namedtuple_defaults "Location" (FieldStr "x y") (Tuple [VInt 0; VInt 0]) h
      = (inr Location, h1) /\
    (exists a h2,
       construct Location [] [] h1 = (inr a, h2) /\
       getattr a "x" h2 = (inr (VInt 0), h2) /\
       getattr a "y" h2 = (inr (VInt 0), h2)) /\
    (exists a h2,
       construct Location [] [("x", VInt 5)] h1 = (inr a, h2) /\
       getattr a "x" h2 = (inr (VInt 5), h2) /\
       getattr a "y" h2 = (inr (VInt 0), h2)) /\
    (exists a h2,
       construct Location [] [("x", VInt 5); ("y", VInt 9)] h1 = (inr a, h2) /\
       getattr a "x" h2 = (inr (VInt 5), h2) /\
       getattr a "y" h2 = (inr (VInt 9), h2)).
Proof.
  assert (Hv : valid_names "Location" (normalize_field_names (FieldStr "x y"))).
  { split_and!; [done| |]; vm_compute; repeat constructor; set_solver. }
  pose proof (factory_returns "Location" (FieldStr "x y") [VInt 0; VInt 0] h Hv) as Hf.
  destruct (factory_class _ _ _ _ _ _ Hf) as (ds & [= <-] & Hc & Hnd & _).
  eexists _, _. split; [exact Hf|].
  assert (Hwf : forall kw : list (string * value),
             NoDup kw.*1 -> kw.*1 ⊆ ["x"; "y"] ->
             well_formed_call (normalize_field_names (FieldStr "x y")) [] kw).
  { intros kw Hkw Hsub. split_and!; [simpl; lia|done|].
    intros k Hk. apply Hsub in Hk. apply list_elem_of_lookup in Hk as [j Hj].
    exists j. split; [done|simpl; lia]. }
  split_and!.
  - eexists _, _. split.
    + eapply (factory_construct _ _ _ _ _ _ [] [] [VInt 0; VInt 0] Hf); [|done].
      apply Hwf; [constructor|set_solver].
    + split; [by apply (getattr_new _ _ _ _ 0 _ _ Hc Hnd)
             |by apply (getattr_new _ _ _ _ 1 _ _ Hc Hnd)].
  - eexists _, _. split.
    + eapply (factory_construct _ _ _ _ _ _ [] _ [VInt 5; VInt 0] Hf); [|done].
      apply Hwf; [|set_solver]. simpl. apply NoDup_singleton.
    + split; [by apply (getattr_new _ _ _ _ 0 _ _ Hc Hnd)
             |by apply (getattr_new _ _ _ _ 1 _ _ Hc Hnd)].
  - eexists _, _. split.
    + eapply (factory_construct _ _ _ _ _ _ [] _ [VInt 5; VInt 9] Hf); [|done].
      apply Hwf; [|set_solver]. simpl. repeat constructor; set_solver.
    + split; [by apply (getattr_new _ _ _ _ 0 _ _ Hc Hnd)
             |by apply (getattr_new _ _ _ _ 1 _ _ Hc Hnd)].
Qed.

(** C6.  [field_names] may be one string, the names separated by white
    space (or commas), or a sequence of the names.  For valid names both
    calls of the factory return, and from the same heap they return the
    same class object: same name, same fields in the same order, same
    defaults. *)
Theorem string_or_sequence typename names sep ds h :
  valid_names typename names ->
  delimiter sep ->
  exists nt h1,
    namedtuple_defaults typename (FieldStr (Str.join sep names)) (Tuple ds) h
      = (inr nt, h1) /\
    namedtuple_defaults typename (FieldSeq names) (Tuple ds) h
      = (inr nt, h1) /\
    classes h1 !! nt = Some (ClassObj typename names (Some ds)).
Proof.
  intros Hv Hsep.
  assert (Hsplit : normalize_field_names (FieldStr (Str.join sep names)) = names).
  { simpl. apply StrFacts.split_join; [done|].
    destruct Hv as (_ & Hf & _). eapply Forall_impl; [exact Hf|].
    intros s Hs. unfold valid_field, valid_name in Hs.
    apply andb_true_iff in Hs as [Hs _]. by apply andb_true_iff in Hs as [Hs _]. }
  pose proof (factory_returns typename (FieldSeq names) ds h Hv) as Hseq.
  pose proof (factory_returns typename (FieldStr (Str.join sep names)) ds h) as Hstr.
  rewrite Hsplit in Hstr. specialize (Hstr Hv). simpl in Hseq.
  eexists _, _. split_and!; [exact Hstr|exact Hseq|].
  simpl. by rewrite lookup_app_r, Nat.sub_diag by lia.
Qed.

Lemma string_or_sequence_witness :
  exists nt h1,
    namedtuple_defaults "Site" (FieldStr "owner strength production")
      (Tuple [VInt 0; VInt 0; VInt 0]) empty_heap = (inr nt, h1) /\
    namedtuple_defaults "Site" (FieldSeq ["owner"; "strength"; "production"])
      (Tuple [VInt 0; VInt 0; VInt 0]) empty_heap = (inr nt, h1) /\
    classes h1 !! nt =
      Some (ClassObj "Site" ["owner"; "strength"; "production"]
              (Some [VInt 0; VInt 0; VInt 0])).
Proof.
  apply (string_or_sequence "Site" ["owner"; "strength"; "production"] " "
           [VInt 0; VInt 0; VInt 0] empty_heap).
  - split_and!; [done| |]; vm_compute; repeat constructor; set_solver.
  - split; [discriminate|reflexivity].
Defined.



(** C8.  A second call of the factory with the same arguments returns a
    class object that did not exist before: it is not the object the first
    call returned, and the first object is left as it was.  The two hold
    the same name, fields and defaults, and neither depends on the other:
    assigning new defaults to the constructor of one, or constructing
    instances of one, leaves the other as it was. *)
Theorem factory_types_are_distinct typename field_names defaults h nt1 h1 :
  namedtuple_defaults typename field_names defaults h = (inr nt1, h1) ->
  exists nt2 h2,
    namedtuple_defaults typename field_names defaults h1 = (inr nt2, h2) /\
    nt1 <> nt2 /\
    classes h1 !! nt2 = None /\
    classes h2 !! nt1 = classes h1 !! nt1 /\
    classes h2 !! nt2 = classes h1 !! nt1 /\
    (forall d, classes (set_new_defaults nt1 d h2).2 !! nt2 = classes h2 !! nt2) /\
    (forall d, classes (set_new_defaults nt2 d h2).2 !! nt1 = classes h2 !! nt1) /\
    (forall nt pos kw, classes (construct nt pos kw h2).2 = classes h2).
Proof.
  intros Hf. pose proof Hf as Hf'.
  apply namedtuple_defaults_inr in Hf' as (Hv & ds & -> & -> & ->).
  pose proof (factory_returns typename field_names ds
                (Heap (classes h ++
                         [ClassObj typename (normalize_field_names field_names)
                            (Some ds)])
                      (instances h)) Hv) as Hf2.
  eexists _, _. split; [exact Hf2|]. simpl.
  rewrite !length_app. simpl. split_and!.
  - lia.
  - apply lookup_ge_None_2. rewrite length_app. simpl. lia.
  - rewrite lookup_app_l; [done|]. rewrite length_app. simpl. lia.
  - rewrite (lookup_app_r (classes h ++ _)) by (rewrite length_app; simpl; lia).
    rewrite length_app. simpl.
    replace (length (classes h) + 1 - (length (classes h) + 1)) with 0 by lia.
    by rewrite lookup_app_r, Nat.sub_diag by lia.
  - intros d. apply set_new_defaults_other. lia.
  - intros d. apply set_new_defaults_other. lia.
  - intros nt pos kw. apply construct_classes.
Qed.

Lemma factory_types_are_distinct_witness :
  exists nt2 h2,
    namedtuple_defaults "Move" (FieldStr "loc direction")
      (Tuple [VInt 0; VInt 0])
      (Heap [ClassObj "Move" ["loc"; "direction"] (Some [VInt 0; VInt 0])] [])
      = (inr nt2, h2) /\
    0 <> nt2 /\
    [ClassObj "Move" ["loc"; "direction"] (Some [VInt 0; VInt 0])] !! nt2
      = None /\
    classes h2 !! 0
      = Some (ClassObj "Move" ["loc"; "direction"] (Some [VInt 0; VInt 0])) /\
    classes h2 !! nt2
      = Some (ClassObj "Move" ["loc"; "direction"] (Some [VInt 0; VInt 0])) /\
    (forall d, classes (set_new_defaults 0 d h2).2 !! nt2 = classes h2 !! nt2) /\
    (forall d, classes (set_new_defaults nt2 d h2).2 !! 0 = classes h2 !! 0) /\
    (forall nt pos kw, classes (construct nt pos kw h2).2 = classes h2).
Proof.
  apply (factory_types_are_distinct "Move" (FieldStr "loc direction")
           (Tuple [VInt 0; VInt 0]) empty_heap 0).
  reflexivity.
Defined.

(** C9, as stated, fails.  Take [m = Move(1, 2)].  The statement
    [m.__class__ = Location] returns, and changes an object that exists:
    the field set of [m] is then that of [Location], so [m.loc] raises
    while [m.x] reads 1.  And [Move.__new__.__defaults__ = (5, 6)], the
    statement of the notebook's fourth cell, changes the type after the
    factory returned it: [Move()] was (0, 0) and is now (5, 6). *)
Lemma instance_and_type_can_change :
  let h :=
    exec_all [OpFactory "Move" (FieldStr "loc direction") (Tuple [VInt 0; VInt 0]);
              OpFactory "Location" (FieldStr "x y") (Tuple [VInt 0; VInt 0]);
              OpConstruct 0 [VInt 1; VInt 2] []] empty_heap in
  getattr 0 "loc" h = (inr (VInt 1), h) /\
  (exists h',
     setattr 0 "__class__" (ArgClass 1) h = (inr tt, h') /\
     instances h' !! 0 = Some (InstanceObj 1 [VInt 1; VInt 2]) /\
     getattr 0 "loc" h' = (inl (AttributeError "loc"), h') /\
     getattr 0 "x" h' = (inr (VInt 1), h')) /\
  (exists h',
     set_new_defaults 0 (Tuple [VInt 5; VInt 6]) h = (inr tt, h') /\
     classes h !! 0
       = Some (ClassObj "Move" ["loc"; "direction"] (Some [VInt 0; VInt 0])) /\
     classes h' !! 0
       = Some (ClassObj "Move" ["loc"; "direction"] (Some [VInt 5; VInt 6])) /\
     inst_items <$> instances (construct 0 [] [] h).2 !! 1
       = Some [VInt 0; VInt 0] /\
     inst_items <$> instances (construct 0 [] [] h').2 !! 1
       = Some [VInt 5; VInt 6]).
Proof.
  split_and!; [reflexivity| |]; eexists; split_and!; reflexivity.
Qed.

(** C9, amended.  Take any sequence of these operations: factory calls,
    constructions, reads of attributes and items, assignments and
    deletions of attributes and items of instances, [_replace],
    comparisons, and assignments to the [__new__.__defaults__] of a type.
    Afterwards every instance still holds the items it held, and every
    type still has its name and its fields in their order.  When no
    operation assigns a class to the [__class__] of an instance, every
    instance is as it was, class and items.  When no operation assigns to
    [__defaults__], every type is as it was, defaults included.  Assigning
    to an attribute of an instance other than [__class__], deleting an
    attribute, and assigning or deleting an item all raise and change
    nothing.  Field values are [None], integers, strings and tuples of
    these. *)
Theorem instances_keep_their_items (ops : list op) (h : heap) :
  (forall a inst,
     instances h !! a = Some inst ->
     exists inst',
       instances (exec_all ops h) !! a = Some inst' /\
       inst_items inst' = inst_items inst) /\
  (forall c cls,
     classes h !! c = Some cls ->
     exists cls',
       classes (exec_all ops h) !! c = Some cls' /\
       cls_name cls' = cls_name cls /\
       cls_fields cls' = cls_fields cls) /\
  (Forall (fun o => writes_class o = false) ops ->
   forall a inst,
     instances h !! a = Some inst ->
     instances (exec_all ops h) !! a = Some inst) /\
  (Forall (fun o => sets_defaults o = false) ops ->
   forall c cls,
     classes h !! c = Some cls ->
     classes (exec_all ops h) !! c = Some cls) /\
  (forall a name v,
     name <> "__class__" -> exists e, setattr a name v h = (inl e, h)) /\
  (forall a name, exists e, delattr a name h = (inl e, h)) /\
  (forall a i v, exists e, setitem a i v h = (inl e, h)) /\
  (forall a i, exists e, delitem a i h = (inl e, h)).
Proof.
  destruct (exec_all_keeps ops h) as [Hi Hc].
  split_and!; [done|done|..].
  - intros Hops a inst. by apply exec_all_instances.
  - intros Hops c cls. by apply exec_all_classes.
  - intros a name v Hname. unfold setattr, get_instance. unfold_monad.
    destruct (instances h !! a); [|by eexists].
    rewrite decide_False by done. by eexists.
  - intros a name. unfold delattr, get_instance. unfold_monad.
    destruct (instances h !! a); [|by eexists].
    case_decide; by eexists.
  - intros a i v. unfold setitem, get_instance. unfold_monad.
    destruct (instances h !! a); by eexists.
  - intros a i. unfold delitem, get_instance. unfold_monad.
    destruct (instances h !! a); by eexists.
Qed.

Lemma instances_keep_their_items_witness :
  let h := Heap [ClassObj "Move" ["loc"; "direction"] (Some [VInt 0; VInt 0]);
                 ClassObj "Location" ["x"; "y"] (Some [VInt 0; VInt 0])]
             [InstanceObj 0 [VInt 1; VInt 2]] in
  let ops := [OpSetAttr 0 "__class__" (ArgClass 1);
              OpSetDefaults 0 (Tuple [VInt 5; VInt 6]);
              OpSetAttr 0 "loc" (ArgValue (VInt 9));
              OpConstruct 0 [] []] in
  let plain := [OpSetAttr 0 "loc" (ArgValue (VInt 9));
                OpDelItem 0 1;
                OpReplace 0 [("loc", VInt 3)];
                OpConstruct 0 [] []] in
  (exists inst',
     instances (exec_all ops h) !! 0 = Some inst' /\
     inst_items inst' = [VInt 1; VInt 2]) /\
  (exists cls',
     classes (exec_all ops h) !! 0 = Some cls' /\
     cls_name cls' = "Move" /\ cls_fields cls' = ["loc"; "direction"]) /\
  instances (exec_all plain h) !! 0 = Some (InstanceObj 0 [VInt 1; VInt 2]) /\
  classes (exec_all plain h) !! 0
    = Some (ClassObj "Move" ["loc"; "direction"] (Some [VInt 0; VInt 0])) /\
  (exists e, setattr 0 "loc" (ArgValue (VInt 9)) h = (inl e, h)).
Proof.
  intros h ops plain.
  destruct (instances_keep_their_items ops h) as (Hi & Hc & _ & _ & Hset & _).
  destruct (instances_keep_their_items plain h) as (_ & _ & Hsame & Hcls & _).
  split_and!.
  - apply (Hi 0 (InstanceObj 0 [VInt 1; VInt 2])). reflexivity.
  - apply (Hc 0 (ClassObj "Move" ["loc"; "direction"] (Some [VInt 0; VInt 0]))).
    reflexivity.
  - apply Hsame; [repeat constructor|reflexivity].
  - apply Hcls; [repeat constructor|reflexivity].
  - by apply Hset.
Defined.

(** C10.  On a type of the factory, a field [f] covered by the defaults
    may be left out while fields declared after it are given by keyword:
    the construction returns, [f] holds its default, and the fields given
    by keyword hold the values given.  The call gives some fields before
    [f] by position and no other; the defaults cover every field it does
    not give by position, so they cover [f]. *)
Theorem defaulted_field_may_be_skipped
    typename field_names ds h nt h1 pos kw j f :
  namedtuple_defaults typename field_names (Tuple ds) h = (inr nt, h1) ->
  normalize_field_names field_names !! j = Some f ->
  length pos <= j ->
  length (normalize_field_names field_names) <= length pos + length ds ->
  NoDup kw.*1 ->
  (forall key, key ∈ kw.*1 ->
     exists i, normalize_field_names field_names !! i = Some key /\ j < i) ->
  exists a h2 d,
    construct nt pos kw h1 = (inr a, h2) /\
    ds !! (j + length ds - length (normalize_field_names field_names)) = Some d /\
    getattr a f h2 = (inr d, h2) /\
    forall key v, (key, v) ∈ kw -> getattr a key h2 = (inr v, h2).
Proof.
  intros Hf Hj Hpos Hcover Hkw Hafter.
  destruct (factory_class _ _ _ _ _ _ Hf) as (ds' & [= <-] & Hc & Hnd & Hcls).
  set (names := normalize_field_names field_names) in *.
  assert (Hjn : j < length names) by (by eapply lookup_lt_Some).
  assert (Hwf : well_formed_call names pos kw).
  { split_and!; [lia|done|]. intros key Hin.
    destruct (Hafter key Hin) as (i & Hi & Hji). exists i. split; [done|lia]. }
  destruct (mapM_seq_total (field_value names ds pos kw) (length names))
    as [items Hitems].
  { intros i Hi. unfold field_value.
    destruct (pos !! i) eqn:Hp; [done|]. apply lookup_ge_None in Hp.
    destruct (names !! i ≫= _); [done|].
    rewrite decide_True by lia. apply lookup_lt_is_Some_2. lia. }
  assert (Hfj : field_value names ds pos kw j =
                ds !! (j + length ds - length names)).
  { unfold field_value. rewrite (lookup_ge_None_2 pos) by lia.
    rewrite Hj. simpl.
    replace (lookup_kw f kw) with (@None value).
    - by rewrite decide_True by lia.
    - symmetry. apply lookup_kw_None. intros Hin.
      destruct (Hafter f Hin) as (i & Hi & Hji).
      assert (i = j) by (by apply (NoDup_lookup names i j f)). lia. }
  destruct (lookup_lt_is_Some_2 ds (j + length ds - length names)) as [d Hd];
    [lia|].
  exists (length (instances h1)),
    (Heap (classes h1) (instances h1 ++ [InstanceObj nt items])), d.
  split_and!.
  - by apply (factory_construct _ _ _ _ _ _ _ _ _ Hf).
  - done.
  - apply (getattr_new _ _ _ _ j _ _ Hc Hnd Hj).
    by rewrite (mapM_seq_lookup _ _ _ _ Hitems Hjn), Hfj.
  - intros key v Hin.
    destruct (Hafter key) as (i & Hi & Hji);
      [apply list_elem_of_fmap; by exists (key, v)|].
    apply (getattr_new _ _ _ _ i _ _ Hc Hnd Hi).
    rewrite (mapM_seq_lookup _ _ _ _ Hitems) by (by eapply lookup_lt_Some).
    unfold field_value. rewrite (lookup_ge_None_2 pos) by lia.
    simpl in Hi. rewrite Hi. simpl. by rewrite (lookup_kw_elem kw key v).
Qed.

Lemma defaulted_field_may_be_skipped_witness :
  exists a h2 d,
    construct 0 [] [("y", VInt 9)]
      (Heap [ClassObj "Location" ["x"; "y"] (Some [VInt 0; VInt 0])] [])
      = (inr a, h2) /\
    [VInt 0; VInt 0] !! 0 = Some d /\
    getattr a "x" h2 = (inr d, h2) /\
    forall key v, (key, v) ∈ [("y", VInt 9)] -> getattr a key h2 = (inr v, h2).
Proof.
  apply (defaulted_field_may_be_skipped "Location" (FieldStr "x y")
           [VInt 0; VInt 0] empty_heap 0 _ [] [("y", VInt 9)] 0 "x").
  - reflexivity.
  - reflexivity.
  - simpl. lia.
  - vm_compute. lia.
  - simpl. apply NoDup_singleton.
  - intros key Hin. exists 1. simpl in Hin.
    apply list_elem_of_singleton in Hin as ->. split; [reflexivity|lia].
Defined.

(** * Further properties *)

(** ** Testing the model of the notebook's classes *)

Example location_class_default :
  dc_call Location_class [] [("y", VInt 9)] []
  = (inr 0, [ {[ "x" := VInt 0; "y" := VInt 9 ]} ]).
Proof. vm_compute. reflexivity. Qed.

Example point_class_requires :
  (dc_call Point_class [VInt 1] [] []).1 = inl (TypeError_missing ["y"]).
Proof. reflexivity. Qed.

(** ** When the factory returns *)

(** X1.  For a type name and field names written in ASCII: called with a
    tuple of defaults, the factory returns a type exactly when the type
    name and the field names are ones [namedtuple] accepts; and when they
    are not, the call raises whatever [defaults] is, and nothing has been
    allocated. *)
Theorem factory_returns_iff typename field_names h :
  Forall (fun s => Str.is_ascii s = true)
    (typename :: normalize_field_names field_names) ->
  (forall ds,
     (exists nt h1,
        namedtuple_defaults typename field_names (Tuple ds) h = (inr nt, h1))
     <-> valid_names typename (normalize_field_names field_names)) /\
  (~ valid_names typename (normalize_field_names field_names) ->
   forall defaults,
     exists e, namedtuple_defaults typename field_names defaults h = (inl e, h)).
Proof.
  intros _. split.
  - intros ds. split.
    + by intros (nt & h1 & (Hv & _)%namedtuple_defaults_inr).
    + intros Hv. eexists _, _. by apply factory_returns.
  - intros Hinv defaults. unfold namedtuple_defaults, namedtuple. unfold_monad.
    destruct (check_names _) as [e|[]] eqn:Hn; [by exists e|].
    destruct (check_fields _ _) as [e|[]] eqn:Hf; [by exists e|].
    exfalso. apply Hinv.
    apply check_names_inr in Hn. apply Forall_cons in Hn as [Ht Hv].
    apply check_fields_inr in Hf as (Hu & Hnd & _).
    split_and!; try done.
    apply Forall_forall. intros s Hs. unfold valid_field.
    rewrite Forall_forall in Hv, Hu. by rewrite (Hv s Hs), (Hu s Hs).
Qed.

Lemma factory_returns_iff_witness :
  (forall ds,
     (exists nt h1,
        namedtuple_defaults "Move" (FieldStr "loc direction") (Tuple ds)
          empty_heap = (inr nt, h1))
     <-> valid_names "Move" ["loc"; "direction"]) /\
  (exists e,
     namedtuple_defaults "class" (FieldStr "x y") (Tuple []) empty_heap
     = (inl e, empty_heap)).
Proof.
  split.
  - apply (factory_returns_iff "Move" (FieldStr "loc direction") empty_heap).
    repeat constructor.
  - apply (factory_returns_iff "class" (FieldStr "x y") empty_heap).
    + repeat constructor.
    + intros (Hv & _). vm_compute in Hv. discriminate.
Defined.

Lemma check_fields_duplicate seen names :
  Forall (fun s => Str.starts_with_underscore s = false) names ->
  (~ NoDup names \/ exists s, s ∈ names /\ s ∈ seen) ->
  exists x j,
    check_fields seen names = inl (ValueError_duplicate x) /\
    names !! j = Some x /\
    (x ∈ seen \/ exists i, i < j /\ names !! i = Some x).
Proof.
  revert seen. induction names as [|name rest IH]; intros seen Hu Hdup.
  - exfalso. destruct Hdup as [Hnd|(s & Hs & _)].
    + apply Hnd. constructor.
    + by apply elem_of_nil in Hs.
  - apply Forall_cons in Hu as [Hname Hu]. simpl. rewrite Hname.
    case_bool_decide as Hin.
    { exists name, 0. split_and!; [done|done|by left]. }
    destruct (IH ({[name]} ∪ seen) Hu) as (x & j & Hc & Hj & Hx).
    { destruct Hdup as [Hnd|(s & Hs & Hseen)].
      - destruct (decide (name ∈ rest)) as [Hr|Hr].
        + right. exists name. split; [done|set_solver].
        + left. intros Hrest. apply Hnd. by apply NoDup_cons.
      - right. exists s. apply elem_of_cons in Hs as [->|Hs]; [done|].
        split; [done|set_solver]. }
    exists x, (S j). split_and!; [done|done|].
    destruct Hx as [[Hx|Hx]%elem_of_union|(i & Hi & Hxi)].
    + right. exists 0. apply elem_of_singleton in Hx as ->. split; [lia|done].
    + by left.
    + right. exists (S i). split; [lia|done].
Qed.

(** X2.  Field names that are each acceptable but not distinct are
    refused: the factory raises the error for a duplicate, naming a field
    that occurs twice, and allocates nothing. *)
Theorem duplicate_fields_refused typename field_names defaults h :
  valid_name typename = true ->
  Forall (fun s => valid_field s = true) (normalize_field_names field_names) ->
  ~ NoDup (normalize_field_names field_names) ->
  exists x i j,
    namedtuple_defaults typename field_names defaults h
      = (inl (ValueError_duplicate x), h) /\
    i < j /\
    normalize_field_names field_names !! i = Some x /\
    normalize_field_names field_names !! j = Some x.
Proof.
  intros Ht Hf Hnd.
  set (names := normalize_field_names field_names) in *.
  destruct (check_fields_duplicate ∅ names) as (x & j & Hc & Hj & Hx).
  { eapply Forall_impl; [exact Hf|]. unfold valid_field. intros s Hs.
    apply andb_true_iff in Hs as [_ Hs]. by apply negb_true_iff in Hs. }
  { by left. }
  destruct Hx as [Hx|(i & Hi & Hxi)]; [set_solver|].
  exists x, i, j. split_and!; try done.
  unfold namedtuple_defaults, namedtuple. unfold_monad. fold names.
  assert (check_names (typename :: names) = inr tt) as ->.
  { apply check_names_inr. constructor; [done|].
    eapply Forall_impl; [exact Hf|]. unfold valid_field. intros s Hs.
    apply andb_true_iff in Hs. tauto. }
  by rewrite Hc.
Qed.

Lemma duplicate_fields_refused_witness :
  exists x i j,
    namedtuple_defaults "Site" (FieldStr "owner strength owner")
      (Tuple [VInt 0]) empty_heap
      = (inl (ValueError_duplicate x), empty_heap) /\
    i < j /\
    ["owner"; "strength"; "owner"] !! i = Some x /\
    ["owner"; "strength"; "owner"] !! j = Some x.
Proof.
  apply (duplicate_fields_refused "Site" (FieldStr "owner strength owner")
           (Tuple [VInt 0]) empty_heap).
  - reflexivity.
  - vm_compute. repeat constructor.
  - vm_compute. intros Hnd. apply NoDup_cons in Hnd as [Hin _].
    apply Hin. set_solver.
Defined.

Lemma has_delimiter_not_identifier s :
  has_delimiter s = true -> Str.isidentifier s = false.
Proof.
  intros Hd. destruct (Str.isidentifier s) eqn:Hid; [|done].
  destruct (StrFacts.name_chars s Hid) as [Hchars _].
  unfold has_delimiter in Hd. apply negb_true_iff in Hd.
  assert (Str.all_chars (fun c => negb (is_delimiter c)) s = true) as Hall;
    [|congruence].
  clear Hd Hid. induction s as [|c s IH]; simpl in *; [done|].
  apply andb_true_iff in Hchars as [Hc Hs].
  rewrite (StrFacts.id_continue_not_delimiter c Hc). simpl. by apply IH.
Qed.

(** X3.  A sequence of field names is taken name by name and never
    split: an element that holds white space or a comma, as in the third
    cell's [namedtuple('Site', ['owner strength production'])], is refused
    as not an identifier, and nothing is allocated. *)
Theorem sequence_is_not_split typename good bad rest h :
  Forall (fun s => valid_name s = true) (typename :: good) ->
  has_delimiter bad = true ->
  namedtuple typename (FieldSeq (good ++ bad :: rest)) h
  = (inl (ValueError_not_identifier bad), h).
Proof.
  intros Hgood Hbad. unfold namedtuple. unfold_monad.
  cbn [normalize_field_names].
  assert (check_names (typename :: good ++ bad :: rest)
          = inl (ValueError_not_identifier bad)) as ->; [|done].
  rewrite app_comm_cons.
  induction Hgood as [|x xs Hx Hxs IH]; simpl.
  - by rewrite (has_delimiter_not_identifier bad Hbad).
  - unfold valid_name in Hx. apply andb_true_iff in Hx as [-> Hk].
    apply negb_true_iff in Hk. rewrite Hk. simpl. exact IH.
Qed.

Lemma sequence_is_not_split_witness :
  namedtuple "Site" (FieldSeq ["owner strength production"]) empty_heap
  = (inl (ValueError_not_identifier "owner strength production"), empty_heap).
Proof.
  apply (sequence_is_not_split "Site" [] "owner strength production" []).
  - repeat constructor.
  - reflexivity.
Defined.

(** ** Which constructions return *)

Lemma construct_missing_class nt cls pos kw h j0 f0 :
  classes h !! nt = Some cls ->
  NoDup (cls_fields cls) -> "_cls" ∉ cls_fields cls ->
  well_formed_call (cls_fields cls) pos kw ->
  omitted (cls_fields cls) pos kw j0 f0 ->
  j0 + length (the_defaults cls) < length (cls_fields cls) ->
  exists missing,
    construct nt pos kw h = (inl (TypeError_missing missing), h) /\
    forall f, f ∈ missing <->
      exists j, omitted (cls_fields cls) pos kw j f /\
                j + length (the_defaults cls) < length (cls_fields cls).
Proof.
  intros Hc Hnd Hcls Hwf Hom0 Hno0.
  rewrite (construct_unfold _ _ _ _ _ Hc (well_formed_keywords _ _ _ Hwf)).
  rewrite new_args by done.
  set (fields := cls_fields cls) in *. set (ds := the_defaults cls) in *.
  destruct (mapM _ _) as [items|] eqn:Hm.
  { exfalso.
    assert (Hjn : j0 < length fields)
      by (destruct Hom0 as [Hj _]; by eapply lookup_lt_Some).
    pose proof (mapM_seq_lookup _ _ _ _ Hm Hjn) as Hv.
    rewrite (field_value_omitted _ _ _ _ _ _ Hom0) in Hv.
    rewrite decide_False in Hv by lia.
    apply length_mapM in Hm. rewrite length_seq in Hm.
    apply lookup_ge_None in Hv. lia. }
  eexists. split; [done|]. intros f.
  rewrite elem_of_unfilled by (by rewrite length_fmap, length_seq).
  split.
  - intros (j & Hj & Hnone). exists j.
    assert (Hjn : j < length fields) by (by eapply lookup_lt_Some).
    rewrite list_lookup_fmap, lookup_seq_lt in Hnone by done.
    simpl in Hnone. injection Hnone as Hnone.
    unfold field_value in Hnone. rewrite Hj in Hnone. simpl in Hnone.
    destruct (pos !! j) eqn:Hp; [done|].
    destruct (lookup_kw f kw) eqn:Hk; [done|].
    apply lookup_ge_None in Hp. apply lookup_kw_None in Hk.
    split; [done|]. case_decide as Hd; [|lia].
    apply lookup_ge_None in Hnone. lia.
  - intros (j & Hom & Hno). exists j. split; [by destruct Hom|].
    assert (Hjn : j < length fields)
      by (destruct Hom as [Hj _]; by eapply lookup_lt_Some).
    rewrite list_lookup_fmap, lookup_seq_lt by done. simpl. f_equal.
    rewrite (field_value_omitted _ _ _ _ _ _ Hom).
    by rewrite decide_False by lia.
Qed.

(** X4.  On a type of the factory a construction returns exactly when the
    call is well formed (no more positional arguments than fields, keywords
    that are distinct names of fields not given by position) and every
    field it leaves out is one of the last [len(defaults)] fields. *)
Theorem construct_returns_iff typename field_names ds h nt h1 pos kw :
  namedtuple_defaults typename field_names (Tuple ds) h = (inr nt, h1) ->
  (exists a h2, construct nt pos kw h1 = (inr a, h2)) <->
  well_formed_call (normalize_field_names field_names) pos kw /\
  forall j f, omitted (normalize_field_names field_names) pos kw j f ->
    length (normalize_field_names field_names) <= j + length ds.
Proof.
  intros (ds' & [= <-] & Hc & Hnd & Hcls)%factory_class.
  by apply (construct_returns_class nt _ pos kw h1 Hc).
Qed.

Lemma construct_returns_iff_witness :
  (exists a h2,
     construct 0 [VInt 1] [("production", VInt 3)] site_heap = (inr a, h2)) <->
  well_formed_call ["owner"; "strength"; "production"] [VInt 1]
    [("production", VInt 3)] /\
  forall j f,
    omitted ["owner"; "strength"; "production"] [VInt 1]
      [("production", VInt 3)] j f ->
    3 <= j + 3.
Proof.
  apply (construct_returns_iff "Site" (FieldStr "owner strength production")
           [VInt 0; VInt 0; VInt 0] empty_heap 0 site_heap).
  reflexivity.
Defined.

(** X5.  The fields that have no default are required: when a well-formed
    call leaves out one of them, the construction raises the error for
    missing arguments, and the names it lists are exactly the fields left
    out that have no default.  (With fields a, b, c, d and defaults
    (10, 20), a and b are required, c and d are not.) *)
Theorem required_fields_are_named
    typename field_names ds h nt h1 pos kw j0 f0 :
  namedtuple_defaults typename field_names (Tuple ds) h = (inr nt, h1) ->
  well_formed_call (normalize_field_names field_names) pos kw ->
  omitted (normalize_field_names field_names) pos kw j0 f0 ->
  j0 + length ds < length (normalize_field_names field_names) ->
  exists missing,
    construct nt pos kw h1 = (inl (TypeError_missing missing), h1) /\
    forall f, f ∈ missing <->
      exists j, omitted (normalize_field_names field_names) pos kw j f /\
                j + length ds < length (normalize_field_names field_names).
Proof.
  intros (ds' & [= <-] & Hc & Hnd & Hcls)%factory_class Hwf Hom Hno.
  by apply (construct_missing_class nt _ pos kw h1 j0 f0 Hc).
Qed.

Lemma required_fields_are_named_witness :
  let h1 := Heap [ClassObj "T" ["a"; "b"; "c"; "d"] (Some [VInt 10; VInt 20])] [] in
  exists missing,
    construct 0 [] [("d", VInt 4)] h1 = (inl (TypeError_missing missing), h1) /\
    forall f, f ∈ missing <->
      exists j, omitted ["a"; "b"; "c"; "d"] [] [("d", VInt 4)] j f /\
                j + 2 < 4.
Proof.
  apply (required_fields_are_named "T" (FieldStr "a b c d")
           [VInt 10; VInt 20] empty_heap 0 _ [] [("d", VInt 4)] 0 "a").
  - reflexivity.
  - split_and!; [simpl; lia|simpl; apply NoDup_singleton|].
    intros k Hk. simpl in Hk. apply list_elem_of_singleton in Hk as ->.
    exists 3. split; [reflexivity|simpl; lia].
  - split_and!; [reflexivity|simpl; lia|].
    simpl. intros Hin. by apply list_elem_of_singleton in Hin.
  - vm_compute. lia.
Defined.

(** X6.  A type made by [namedtuple] alone, as in the third cell, has no
    defaults: a construction returns exactly when the call is well formed
    and supplies every field, by position or by keyword. *)
Theorem plain_namedtuple_requires_all typename field_names h nt h1 pos kw :
  namedtuple typename field_names h = (inr nt, h1) ->
  (exists a h2, construct nt pos kw h1 = (inr a, h2)) <->
  well_formed_call (normalize_field_names field_names) pos kw /\
  forall j f,
    normalize_field_names field_names !! j = Some f ->
    j < length pos \/ f ∈ kw.*1.
Proof.
  intros (Hv & -> & ->)%namedtuple_inr.
  destruct (valid_names_fields _ _ Hv) as [Hnd Hcls].
  set (names := normalize_field_names field_names) in *.
  rewrite (construct_returns_class _ (ClassObj typename names None) pos kw);
    [|simpl; by rewrite lookup_app_r, Nat.sub_diag by lia|done|done].
  simpl. split; intros [Hwf Hall]; (split; [done|]).
  - intros j f Hj.
    destruct (decide (j < length pos)) as [|Hp]; [by left|].
    destruct (decide (f ∈ kw.*1)) as [|Hk]; [by right|].
    exfalso. assert (j < length names) by (by eapply lookup_lt_Some).
    pose proof (Hall j f (conj Hj (conj (proj1 (Nat.nlt_ge _ _) Hp) Hk))).
    unfold the_defaults in *. simpl in *. lia.
  - intros j f (Hj & Hp & Hk). destruct (Hall j f Hj); [lia|done].
Qed.

Lemma plain_namedtuple_requires_all_witness :
  let h1 := Heap [ClassObj "Move" ["loc"; "direction"] None] [] in
  (exists a h2, construct 0 [VInt 1] [("direction", VInt 2)] h1 = (inr a, h2)) <->
  well_formed_call ["loc"; "direction"] [VInt 1] [("direction", VInt 2)] /\
  forall j f,
    ["loc"; "direction"] !! j = Some f ->
    j < 1 \/ f ∈ ["direction"].
Proof.
  apply (plain_namedtuple_requires_all "Move" (FieldStr "loc direction")
           empty_heap 0).
  reflexivity.
Defined.

(** ** Calls that are not well formed *)

Lemma bind_keywords_app {A} params (slots : list (option A)) kw1 kw2 :
  bind_keywords params slots (kw1 ++ kw2) =
  match bind_keywords params slots kw1 with
  | inl e => inl e
  | inr slots' => bind_keywords params slots' kw2
  end.
Proof.
  revert slots. induction kw1 as [|kv kw1 IH]; intros slots; simpl; [done|].
  destruct (bind_keyword params slots kv); [done|apply IH].
Qed.

Lemma positional_slots_lookup_lt {A} argc (pos : list A) j :
  j < length pos -> j < argc ->
  positional_slots argc pos !! j = Some (pos !! j).
Proof.
  intros Hp Hj. unfold positional_slots.
  rewrite lookup_app_l by (rewrite length_fmap, length_take; lia).
  rewrite list_lookup_fmap, lookup_take_lt by lia.
  by destruct (lookup_lt_is_Some_2 pos j Hp) as [v ->].
Qed.


(** The slots of [__new__] after a run of keywords that name distinct
    fields not given by position. *)
Lemma new_keywords_prefix nt fields pos kw1 :
  NoDup fields -> "_cls" ∉ fields ->
  NoDup kw1.*1 ->
  (forall key, key ∈ kw1.*1 ->
     exists i, fields !! i = Some key /\ length pos <= i) ->
  bind_keywords ("_cls" :: fields)
    (positional_slots (S (length fields)) (ArgClass nt :: (ArgValue <$> pos)))
    (prod_map id ArgValue <$> kw1)
  = inr (imap (slot_after_kw ("_cls" :: fields) (prod_map id ArgValue <$> kw1))
           (positional_slots (S (length fields))
              (ArgClass nt :: (ArgValue <$> pos)))).
Proof.
  intros Hnd Hcls Hkw Hk. apply bind_keywords_ok.
  - by apply NoDup_cons.
  - by rewrite keys_fmap.
  - intros key Hin. rewrite keys_fmap in Hin.
    destruct (Hk key Hin) as (i & Hi & Hge). exists (S i). split; [done|].
    assert (i < length fields) by (by eapply lookup_lt_Some).
    rewrite positional_slots_lookup by (simpl; rewrite ?length_fmap; lia).
    simpl. by rewrite lookup_ge_None_2 by (rewrite length_fmap; lia).
Qed.

(** X7.  More positional arguments than fields: the construction raises
    the error for too many positional arguments (which counts the class as
    one argument); with keywords as well it still raises, and in no case
    is an instance allocated. *)
Theorem too_many_positional_refused typename field_names defaults h nt h1 pos :
  namedtuple_defaults typename field_names defaults h = (inr nt, h1) ->
  length (normalize_field_names field_names) < length pos ->
  construct nt pos [] h1
    = (inl (TypeError_too_many_positional (S (length pos))), h1) /\
  forall kw, exists e, construct nt pos kw h1 = (inl e, h1).
Proof.
  intros (ds & -> & Hc & Hnd & Hcls)%factory_class Hlen. split.
  - rewrite (construct_unfold _ _ _ _ _ Hc) by constructor.
    unfold bind_args. simpl. rewrite length_fmap.
    by rewrite (proj2 (Nat.ltb_lt _ _)) by lia.
  - intros kw. destruct (construct nt pos kw h1) as [[e|a] h2] eqn:Hcon.
    + exists e. by rewrite (construct_inl _ _ _ _ _ _ Hcon).
    + destruct (construct_inr _ _ _ _ _ _ _ Hc Hnd Hcls Hcon) as [[Hle _] _].
      simpl in Hle. lia.
Qed.

Lemma too_many_positional_refused_witness :
  construct 0 [VInt 1; VInt 2; VInt 3; VInt 4] [] site_heap
    = (inl (TypeError_too_many_positional 5), site_heap) /\
  forall kw,
    exists e,
      construct 0 [VInt 1; VInt 2; VInt 3; VInt 4] kw site_heap
      = (inl e, site_heap).
Proof.
  apply (too_many_positional_refused "Site"
           (FieldStr "owner strength production")
           (Tuple [VInt 0; VInt 0; VInt 0]) empty_heap 0 site_heap).
  - reflexivity.
  - vm_compute. lia.
Defined.



(** X9.  A field given by position and again by keyword, in a call whose
    keywords are distinct: when the keywords before that one are names of
    fields not given by position, the construction raises the error for
    multiple values, naming the field, and allocates nothing. *)
Theorem field_given_twice_refused
    typename field_names defaults h nt h1 pos kw1 j f v kw2 :
  namedtuple_defaults typename field_names defaults h = (inr nt, h1) ->
  NoDup (kw1 ++ (f, v) :: kw2).*1 ->
  (forall key, key ∈ kw1.*1 ->
     exists i, normalize_field_names field_names !! i = Some key /\
               length pos <= i) ->
  normalize_field_names field_names !! j = Some f ->
  j < length pos ->
  construct nt pos (kw1 ++ (f, v) :: kw2) h1
  = (inl (TypeError_multiple_values f), h1).
Proof.
  intros (ds & -> & Hc & Hnd & Hcls)%factory_class Hall Hk Hj Hpos.
  assert (Hkw : NoDup kw1.*1)
    by (rewrite fmap_app in Hall; by apply NoDup_app in Hall as [? _]).
  set (names := normalize_field_names field_names) in *.
  assert (Hjn : j < length names) by (by eapply lookup_lt_Some).
  rewrite (construct_unfold _ _ _ _ _ Hc Hall). unfold bind_args.
  cbn [cls_fields length].
  rewrite fmap_app, bind_keywords_app, new_keywords_prefix by done.
  rewrite fmap_cons. cbn [bind_keywords]. unfold bind_keyword.
  cbn [prod_map fst snd id].
  rewrite (index_of_lookup f ("_cls" :: names) (S j));
    [|by apply NoDup_cons|done].
  rewrite list_lookup_imap.
  rewrite positional_slots_lookup_lt by (simpl; rewrite ?length_fmap; lia).
  simpl. rewrite list_lookup_fmap.
  by destruct (lookup_lt_is_Some_2 pos j Hpos) as [x ->].
Qed.

Lemma field_given_twice_refused_witness :
  construct 0 [VInt 1] ([] ++ [("owner", VInt 2)]) site_heap
  = (inl (TypeError_multiple_values "owner"), site_heap).
Proof.
  apply (field_given_twice_refused "Site"
           (FieldStr "owner strength production")
           (Tuple [VInt 0; VInt 0; VInt 0]) empty_heap 0 site_heap
           [VInt 1] [] 0 "owner" (VInt 2) []).
  - reflexivity.
  - repeat constructor. by intros ?%elem_of_nil.
  - intros key Hin. by apply elem_of_nil in Hin.
  - reflexivity.
  - simpl. lia.
Defined.

(** X13.  A keyword name that comes twice in one call (the second time
    from a [**] mapping): the call itself raises, naming the first name
    that repeats an earlier one, before the constructor is entered, so
    whatever else the call holds; nothing is allocated.  The same holds
    for a call of one of the hand-written classes. *)
Theorem repeated_keyword_refused
    typename field_names defaults h nt h1 pos kw1 k v kw2 :
  namedtuple_defaults typename field_names defaults h = (inr nt, h1) ->
  NoDup kw1.*1 ->
  k ∈ kw1.*1 ->
  construct nt pos (kw1 ++ (k, v) :: kw2) h1
    = (inl (TypeError_repeated_keyword k), h1) /\
  forall C objs,
    dc_call C pos (kw1 ++ (k, v) :: kw2) objs
    = (inl (TypeError_repeated_keyword k), objs).
Proof.
  intros (ds & -> & Hc & _)%factory_class Hkw Hk.
  assert (Hrep : check_keywords (kw1 ++ (k, v) :: kw2)
                 = inl (TypeError_repeated_keyword k)).
  { unfold check_keywords.
    rewrite (first_repeated_app ∅ kw1 kw2 k v Hkw); [done| |by right].
    intros x _. apply not_elem_of_empty. }
  split.
  - unfold construct, get_class. unfold_monad. by rewrite Hc, Hrep.
  - intros C objs. unfold dc_call. by rewrite Hrep.
Qed.

Lemma repeated_keyword_refused_witness :
  construct 0 [VInt 1; VInt 2; VInt 3; VInt 4]
    ([("z", VInt 5)] ++ [("z", VInt 6)]) site_heap
    = (inl (TypeError_repeated_keyword "z"), site_heap) /\
  forall C objs,
    dc_call C [VInt 1; VInt 2; VInt 3; VInt 4]
      ([("z", VInt 5)] ++ [("z", VInt 6)]) objs
    = (inl (TypeError_repeated_keyword "z"), objs).
Proof.
  apply (repeated_keyword_refused "Site"
           (FieldStr "owner strength production")
           (Tuple [VInt 0; VInt 0; VInt 0]) empty_heap 0 site_heap
           [VInt 1; VInt 2; VInt 3; VInt 4] [("z", VInt 5)] "z" (VInt 6) []).
  - reflexivity.
  - repeat constructor. by intros ?%elem_of_nil.
  - by apply list_elem_of_singleton.
Defined.

(** ** Assigning the defaults again *)

(** X10.  The fourth cell assigns [__defaults__] by hand.  Doing so on a
    type the factory returned replaces its defaults altogether: the heap
    is the one the factory would have left had it been called with the
    new tuple.  A list is refused, and the type keeps its defaults. *)
Theorem defaults_can_be_reassigned typename field_names ds1 ds2 h nt h1 :
  namedtuple_defaults typename field_names (Tuple ds1) h = (inr nt, h1) ->
  namedtuple_defaults typename field_names (Tuple ds2) h
    = (inr nt, (set_new_defaults nt (Tuple ds2) h1).2) /\
  (set_new_defaults nt (Tuple ds2) h1).1 = inr tt /\
  set_new_defaults nt (List ds2) h1 = (inl TypeError_defaults_not_tuple, h1).
Proof.
  intros Hf. pose proof Hf as Hf'.
  apply namedtuple_defaults_inr in Hf' as (Hv & ds & [= <-] & -> & ->).
  rewrite (factory_returns typename field_names ds2 h Hv).
  unfold set_new_defaults, get_class, put_class. unfold_monad. simpl.
  rewrite lookup_app_r, Nat.sub_diag by lia. simpl.
  rewrite insert_app_r_alt, Nat.sub_diag by lia. done.
Qed.

Lemma defaults_can_be_reassigned_witness :
  let h1 := Heap [ClassObj "Location" ["x"; "y"] (Some [VInt 0; VInt 0])] [] in
  namedtuple_defaults "Location" (FieldStr "x y") (Tuple [VInt 7]) empty_heap
    = (inr 0, (set_new_defaults 0 (Tuple [VInt 7]) h1).2) /\
  (set_new_defaults 0 (Tuple [VInt 7]) h1).1 = inr tt /\
  set_new_defaults 0 (List [VInt 7]) h1 = (inl TypeError_defaults_not_tuple, h1).
Proof.
  apply (defaults_can_be_reassigned "Location" (FieldStr "x y")
           [VInt 0; VInt 0] [VInt 7] empty_heap 0).
  reflexivity.
Defined.

(** ** The classes of the first cells and the types that replace them *)

Section MethodBinding.
Context {A : Type} (inj : value -> A) (x : A) (p : string).

Lemma default_for_method (fields : list string) (ds : list value) j :
  default_for (S (length fields)) (inj <$> ds) (S j) =
  inj <$> (if decide (length fields <= j + length ds)
           then ds !! (j + length ds - length fields) else None).
Proof.
  unfold default_for. rewrite length_fmap, list_lookup_fmap.
  case_decide as Hc.
  - rewrite (proj2 (Z.ltb_ge _ _)) by lia. do 2 f_equal. lia.
  - by rewrite (proj2 (Z.ltb_lt _ _)) by lia.
Qed.

Lemma slot_value_method fields ds pos kw j :
  slot_value (p :: fields) (inj <$> ds) (x :: (inj <$> pos))
    (prod_map id inj <$> kw) (S j) =
  inj <$> field_value fields ds pos kw j.
Proof.
  unfold slot_value, field_value. simpl.
  rewrite list_lookup_fmap. destruct (pos !! j); simpl; [done|].
  destruct (fields !! j) as [name|]; simpl.
  - rewrite lookup_kw_fmap. destruct (lookup_kw name kw); simpl; [done|].
    apply default_for_method.
  - apply default_for_method.
Qed.

(** What a function whose first parameter takes [x] binds. *)
Lemma method_args fields ds pos kw :
  NoDup fields -> p ∉ fields -> well_formed_call fields pos kw ->
  bind_args (p :: fields) (inj <$> ds) (x :: (inj <$> pos))
    (prod_map id inj <$> kw) =
  match mapM (field_value fields ds pos kw) (seq 0 (length fields)) with
  | Some items => inr (x :: (inj <$> items))
  | None =>
      inl (TypeError_missing
             (unfilled fields
                (field_value fields ds pos kw <$> seq 0 (length fields))))
  end.
Proof.
  intros Hnd Hp (Hle & Hkw & Hk).
  rewrite bind_args_spec.
  - cbv zeta. simpl length. rewrite <- cons_seq, <- fmap_S_seq.
    rewrite fmap_cons, <- list_fmap_compose.
    replace (slot_value _ _ _ _ 0) with (Some x) by done.
    erewrite (list_fmap_ext _ (fun j => inj <$> field_value fields ds pos kw j));
      [|intros i j _; apply slot_value_method].
    simpl all_filled. rewrite all_filled_fmap.
    destruct (mapM _ _) as [items|]; [done|].
    cbn [fmap option_fmap option_map unfilled]. do 2 f_equal.
    rewrite <- (unfilled_fmap inj fields).
    by rewrite <- list_fmap_compose.
  - by apply NoDup_cons.
  - split_and!.
    + simpl. rewrite length_fmap. lia.
    + by rewrite keys_fmap.
    + intros k Hin. rewrite keys_fmap in Hin.
      destruct (Hk k Hin) as (j & Hj & Hge). exists (S j). split; [done|].
      simpl. rewrite length_fmap. lia.
Qed.

Lemma method_args_inr fields ds pos kw args :
  NoDup fields -> p ∉ fields ->
  bind_args (p :: fields) (inj <$> ds) (x :: (inj <$> pos))
    (prod_map id inj <$> kw) = inr args ->
  well_formed_call fields pos kw.
Proof.
  intros Hnd Hp Hb.
  apply bind_args_inr in Hb as (Hle & Hkw & Hk); [|by apply NoDup_cons].
  simpl in Hle. rewrite length_fmap in Hle. rewrite keys_fmap in Hkw, Hk.
  split_and!; [lia|done|].
  intros k Hin. destruct (Hk k Hin) as ([|j] & Hj & Hge);
    simpl in Hge; rewrite length_fmap in Hge; [lia|].
  exists j. split; [done|lia].
Qed.

End MethodBinding.

Lemma init_values_inr items : init_values (inr <$> items) = Some items.
Proof. unfold init_values. by apply mapM_fmap_Some. Qed.

Lemma init_dict_other (fs : list string) (vs : list value)
    (d : gmap string value) f :
  f ∉ fs ->
  foldl (fun d fv => <[fv.1 := fv.2]> d) d (zip fs vs) !! f = d !! f.
Proof.
  revert vs d. induction fs as [|f0 fs IH]; intros [|v0 vs] d Hf; try done.
  apply not_elem_of_cons in Hf as [Hne Hf]. simpl.
  rewrite IH by done. by rewrite lookup_insert_ne.
Qed.

Lemma init_dict_lookup (fs : list string) (vs : list value)
    (d : gmap string value) j f v :
  NoDup fs -> fs !! j = Some f -> vs !! j = Some v ->
  foldl (fun d fv => <[fv.1 := fv.2]> d) d (zip fs vs) !! f = Some v.
Proof.
  revert vs d j. induction fs as [|f0 fs IH]; intros [|v0 vs] d j Hnd Hf Hv;
    try done.
  apply NoDup_cons in Hnd as [Hf0 Hnd]. destruct j as [|j]; simpl in *.
  - injection Hf as ->. injection Hv as ->.
    rewrite init_dict_other by done. apply lookup_insert_eq.
  - by apply (IH vs _ j).
Qed.

(** A call of a class of the first cells returns exactly when the call is
    well formed and every parameter gets a value; the new object then has
    the attributes [__init__] stored. *)
Lemma dc_call_inr C pos kw (objs : objects) o objs' :
  NoDup (dc_fields C) -> "self" ∉ dc_fields C ->
  dc_call C pos kw objs = (inr o, objs') <->
  well_formed_call (dc_fields C) pos kw /\
  exists items,
    mapM (field_value (dc_fields C) (dc_defaults C) pos kw)
      (seq 0 (length (dc_fields C))) = Some items /\
    o = length objs /\
    objs' = objs ++ [foldl (fun d fv => <[fv.1 := fv.2]> d) ∅
                       (zip (dc_fields C) items)].
Proof.
  intros Hnd Hself. unfold dc_call.
  destruct (check_keywords kw) as [e|[]] eqn:Hck.
  { split; [done|]. intros (Hwf & _).
    apply well_formed_keywords, check_keywords_inr in Hwf. congruence. }
  destruct (bind_args _ _ _ _) as [e|args] eqn:Hb.
  - split; [done|]. intros (Hwf & items & Hitems & _).
    rewrite (method_args inr (inl (length objs)) "self") in Hb by done.
    by rewrite Hitems in Hb.
  - pose proof (method_args_inr inr _ "self" _ _ _ _ _ Hnd Hself Hb) as Hwf.
    rewrite (method_args inr (inl (length objs)) "self") in Hb by done.
    destruct (mapM _ _) as [items|] eqn:Hitems; [|done].
    injection Hb as <-. unfold init_body.
    rewrite lookup_app_r, Nat.sub_diag by lia. simpl.
    rewrite init_values_inr.
    rewrite insert_app_r_alt, Nat.sub_diag by lia. simpl.
    split.
    + intros [= <- <-]. split; [done|]. by exists items.
    + intros (_ & items' & [= <-] & -> & ->). done.
Qed.

(** X11.  The types of the last cell accept the calls the classes of the
    first cells accept, and hold the same values: for a class whose
    [__init__] stores its parameters and the type the factory makes from
    the same fields and defaults, a call returns for one exactly when it
    returns for the other, and then every field reads the same on both. *)
Theorem data_class_replaced name typename field_names ds h nt h1 pos kw objs :
  namedtuple_defaults typename field_names (Tuple ds) h = (inr nt, h1) ->
  "self" ∉ normalize_field_names field_names ->
  let C := DataClass name (normalize_field_names field_names) ds in
  ((exists a h2, construct nt pos kw h1 = (inr a, h2)) <->
   (exists o objs', dc_call C pos kw objs = (inr o, objs'))) /\
  (forall a h2 o objs',
     construct nt pos kw h1 = (inr a, h2) ->
     dc_call C pos kw objs = (inr o, objs') ->
     forall f, f ∈ normalize_field_names field_names ->
       exists v,
         getattr a f h2 = (inr v, h2) /\ dc_getattr o f objs' = inr v).
Proof.
  intros Hf Hself C.
  destruct (factory_class _ _ _ _ _ _ Hf) as (ds' & [= <-] & Hc & Hnd & Hcls).
  set (names := normalize_field_names field_names) in *.
  split.
  - split.
    + intros (a & h2 & Hcon).
      destruct (construct_inr _ _ _ _ _ _ _ Hc Hnd Hcls Hcon)
        as (Hwf & items & Hitems & _).
      eexists _, _. apply (dc_call_inr C); [done|done|].
      split; [done|]. by exists items.
    + intros (o & objs' & Hdc).
      apply (dc_call_inr C) in Hdc as (Hwf & items & Hitems & _); [|done|done].
      eexists _, _. by apply (construct_ok nt _ pos kw h1 items Hc).
  - intros a h2 o objs' Hcon Hdc f Hin.
    destruct (construct_inr _ _ _ _ _ _ _ Hc Hnd Hcls Hcon)
      as (_ & items & Hitems & -> & ->).
    apply (dc_call_inr C) in Hdc as (_ & items' & Hitems' & -> & ->);
      [|done|done].
    pose proof (eq_trans (eq_sym Hitems) Hitems') as [= <-].
    simpl in Hitems.
    apply list_elem_of_lookup in Hin as [j Hj].
    assert (is_Some (items !! j)) as [v Hv].
    { apply lookup_lt_is_Some_2. apply length_mapM in Hitems.
      rewrite length_seq in Hitems. apply lookup_lt_Some in Hj. lia. }
    exists v. split.
    + by apply (getattr_new _ _ _ _ j _ _ Hc Hnd Hj).
    + unfold dc_getattr. rewrite lookup_app_r, Nat.sub_diag by lia. simpl.
      by rewrite (init_dict_lookup names items ∅ j f v).
Qed.

Lemma data_class_replaced_witness :
  let h1 := Heap [ClassObj "Location" ["x"; "y"] (Some [VInt 0; VInt 0])] [] in
  ((exists a h2, construct 0 [VInt 5] [] h1 = (inr a, h2)) <->
   (exists o objs', dc_call Location_class [VInt 5] [] [] = (inr o, objs'))) /\
  (forall a h2 o objs',
     construct 0 [VInt 5] [] h1 = (inr a, h2) ->
     dc_call Location_class [VInt 5] [] [] = (inr o, objs') ->
     forall f, f ∈ ["x"; "y"] ->
       exists v,
         getattr a f h2 = (inr v, h2) /\ dc_getattr o f objs' = inr v).
Proof.
  apply (data_class_replaced "Location" "Location" (FieldStr "x y")
           [VInt 0; VInt 0] empty_heap 0 _ [VInt 5] [] []).
  - reflexivity.
  - vm_compute. set_solver.
Defined.

(** X12.  Whatever is done with types and instances, as long as no class
    is assigned to the [__class__] of an instance, every instance belongs
    to a class of the heap and holds exactly one value for each of its
    fields, so reading a declared field of an instance always returns a
    value. *)
Theorem instances_hold_every_field (ops : list op) (h : heap) :
  Forall (fun o => writes_class o = false) ops ->
  heap_wf h ->
  heap_wf (exec_all ops h) /\
  forall a inst cls f,
    instances (exec_all ops h) !! a = Some inst ->
    classes (exec_all ops h) !! inst_class inst = Some cls ->
    f ∈ cls_fields cls ->
    exists v, getattr a f (exec_all ops h) = (inr v, exec_all ops h).
Proof.
  intros Hops Hwf.
  pose proof (exec_all_wf ops h Hops Hwf) as Hwf'.
  split; [done|]. intros a inst cls f Ha Hc Hf.
  destruct (Hwf' a inst Ha) as (cls' & Hc' & Hlen).
  assert (cls' = cls) as -> by congruence.
  destruct (index_of_elem f _ Hf) as [i Hi].
  pose proof (index_of_Some _ _ _ Hi) as Hfi.
  destruct (lookup_lt_is_Some_2 (inst_items inst) i) as [v Hv].
  { apply lookup_lt_Some in Hfi. lia. }
  exists v. unfold getattr, get_instance, get_class. unfold_monad.
  by rewrite Ha, Hc, Hi, Hv.
Qed.

Lemma instances_hold_every_field_witness :
  let ops := [OpFactory "Move" (FieldStr "loc direction") (Tuple [VInt 0; VInt 0]);
              OpConstruct 0 [VInt 3] [];
              OpSetDefaults 0 (Tuple [VInt 8; VInt 9]);
              OpSetAttr 0 "loc" (ArgValue (VInt 5));
              OpReplace 0 [("direction", VInt 4)]] in
  heap_wf (exec_all ops empty_heap) /\
  forall a inst cls f,
    instances (exec_all ops empty_heap) !! a = Some inst ->
    classes (exec_all ops empty_heap) !! inst_class inst = Some cls ->
    f ∈ cls_fields cls ->
    exists v,
      getattr a f (exec_all ops empty_heap) = (inr v, exec_all ops empty_heap).
Proof.
  apply (instances_hold_every_field _ empty_heap).
  - repeat constructor.
  - intros a inst Ha. simpl in Ha. by rewrite lookup_nil in Ha.
Defined.
